(** * SimpleVector: a shallow embedding of simple-vector/simple_vector.h

    The container is a record of its three private fields.  The array
    behind [items_] is a list whose length is the allocated element
    count; iterators ([Type*]) are offsets from [items_.Get()].  [size_t]
    values are integers with the wrap-around of 64-bit unsigned
    arithmetic written out ([wrap]).  A member function is a function from
    the object before the call to a [result]: the object (and the returned
    value) after it, the [std::out_of_range] exception, or [Undefined]
    when an [assert] fails or an element outside the allocated array is
    touched.  The operations that take a second container by reference
    and depend on whether it is the same object ([operator==], the two
    assignments, [swap]) are stated over a store of objects indexed by
    address.  Allocation failure and exceptions thrown by the element
    type's own operations are not part of the model. *)

From Stdlib Require Import ZArith Lia.
From stdpp Require Import base numbers option list gmap.

Local Open Scope Z_scope.

(** ** Outcomes of a call *)

Inductive result (A : Type) : Type :=
| Ok (a : A)
| Throw_out_of_range
| Undefined.
Arguments Ok {A} a.
Arguments Throw_out_of_range {A}.
Arguments Undefined {A}.

#[global] Instance result_ret : MRet result := fun _ a => Ok a.
#[global] Instance result_bind : MBind result := fun _ _ k r =>
  match r with
  | Ok a => k a
  | Throw_out_of_range => Throw_out_of_range
  | Undefined => Undefined
  end.

(** The call does not end in the exception. *)
Definition no_throw {A : Type} (r : result A) : Prop := r ≠ Throw_out_of_range.

(** [size_t] is 64 bits wide. *)
Definition size_t_bits : Z := 64.
Definition wrap (z : Z) : Z := z mod 2 ^ size_t_bits.

(** [for (size_t i = lo; i < hi; ++i) body]: [hi - lo] rounds when
    [lo < hi], none otherwise. *)
Fixpoint for_loop {S : Type} (n : nat) (i : Z) (body : Z → S → result S) (s : S)
  : result S :=
  match n with
  | O => Ok s
  | S n' => s' ← body i s; for_loop n' (i + 1) body s'
  end.

Definition for_range {S : Type} (lo hi : Z) (body : Z → S → result S) (s : S)
  : result S :=
  for_loop (Z.to_nat (hi - lo)) lo body s.

(** ** ArrayPtr *)

Module ArrayPtr.
Section Array.
Context {T : Type}.
Variable dflt : T.

(** Modelled from the spec: array_ptr.h is not part of the sources.
    [ArrayPtr(n)] "allocates storage for exactly n elements"; the
    fresh elements are default-initialised. *)
Definition create (n : Z) : list T := replicate (Z.to_nat n) dflt.

(** Modelled from the spec: "Indexing returns a mutable or read-only
    reference to slot i, valid only for i within the allocated range".
    Reading through the reference: *)
Definition get (a : list T) (i : Z) : result T :=
  if bool_decide (0 ≤ i) then
    match a !! Z.to_nat i with
    | Some x => Ok x
    | None => Undefined
    end
  else Undefined.

(** Modelled from the spec: the same reference, assigned through. *)
Definition set (a : list T) (i : Z) (x : T) : result (list T) :=
  if bool_decide (0 ≤ i < Z.of_nat (length a)) then Ok (<[Z.to_nat i := x]> a)
  else Undefined.

(** Modelled from the spec: "SwapOwnership(other) exchanges the storage
    pointers of two Buffers". *)
Definition swap (a b : list T) : list T * list T := (b, a).

(** Modelled from the spec: move assignment "steals right-hand side's
    storage"; the right-hand side is left without storage. *)
Definition move_assign (lhs rhs : list T) : list T * list T := (rhs, []).
End Array.
End ArrayPtr.

(** Slot [i] of an array, for stating what a loop leaves in it. *)
Definition slot {T : Type} (a : list T) (i : Z) : option T :=
  if bool_decide (0 ≤ i) then a !! Z.to_nat i else None.

Section SimpleVector.
Context {T : Type}.
(** [Type()], the state of an element after it has been moved from, and
    the element type's [operator==]. *)
Variable dflt : T.
Variable moved : T → T.
Variable T_eqb : T → T → bool.

(** *** The algorithms of <algorithm> the class calls

    [std::copy] and [std::move] assign element by element from the low
    end, [std::copy_backward] and [std::move_backward] from the high
    end.  [Moving] leaves the source element in its moved-from state. *)

Inductive how := Copying | Moving.

Definition release (h : how) (a : list T) (i : Z) (x : T) : result (list T) :=
  match h with
  | Copying => Ok a
  | Moving => ArrayPtr.set a i (moved x)
  end.

(** What a transfer leaves in the source element. *)
Definition left_behind (h : how) (x : T) : T :=
  match h with
  | Copying => x
  | Moving => moved x
  end.

(** Source and destination in two different arrays. *)
Fixpoint transfer (h : how) (n : nat) (src : list T) (first : Z)
    (dst : list T) (d_first : Z) : result (list T * list T) :=
  match n with
  | O => Ok (src, dst)
  | S n' =>
      x ← ArrayPtr.get src first;
      dst' ← ArrayPtr.set dst d_first x;
      src' ← release h src first x;
      transfer h n' src' (first + 1) dst' (d_first + 1)
  end.

Fixpoint transfer_backward (h : how) (n : nat) (src : list T) (last : Z)
    (dst : list T) (d_last : Z) : result (list T * list T) :=
  match n with
  | O => Ok (src, dst)
  | S n' =>
      x ← ArrayPtr.get src (last - 1);
      dst' ← ArrayPtr.set dst (d_last - 1) x;
      src' ← release h src (last - 1) x;
      transfer_backward h n' src' (last - 1) dst' (d_last - 1)
  end.

(** Source and destination in the same array. *)
Fixpoint shift (h : how) (n : nat) (a : list T) (first d_first : Z)
    : result (list T) :=
  match n with
  | O => Ok a
  | S n' =>
      x ← ArrayPtr.get a first;
      a' ← ArrayPtr.set a d_first x;
      a'' ← release h a' first x;
      shift h n' a'' (first + 1) (d_first + 1)
  end.

Fixpoint shift_backward (h : how) (n : nat) (a : list T) (last d_last : Z)
    : result (list T) :=
  match n with
  | O => Ok a
  | S n' =>
      x ← ArrayPtr.get a (last - 1);
      a' ← ArrayPtr.set a (d_last - 1) x;
      a'' ← release h a' (last - 1) x;
      shift_backward h n' a'' (last - 1) (d_last - 1)
  end.

(** A range whose end precedes its beginning is not a range. *)
Definition distance (first last : Z) : result nat :=
  if bool_decide (first ≤ last) then Ok (Z.to_nat (last - first)) else Undefined.

(** The four algorithms over a range [first, last): the number of
    elements is the distance between the two iterators. *)
Definition transfer_range (h : how) (src : list T) (first last : Z)
    (dst : list T) (d_first : Z) : result (list T * list T) :=
  n ← distance first last;
  transfer h n src first dst d_first.

Definition transfer_range_backward (h : how) (src : list T) (first last : Z)
    (dst : list T) (d_last : Z) : result (list T * list T) :=
  n ← distance first last;
  transfer_backward h n src last dst d_last.

Definition shift_range (h : how) (a : list T) (first last d_first : Z)
    : result (list T) :=
  n ← distance first last;
  shift h n a first d_first.

Definition shift_range_backward (h : how) (a : list T) (first last d_last : Z)
    : result (list T) :=
  n ← distance first last;
  shift_backward h n a last d_last.

(** [std::copy(first, last, d_first)] into another array: the
    destination array afterwards. *)
Definition std_copy (src : list T) (first last : Z) (dst : list T) (d_first : Z)
    : result (list T) :=
  r ← transfer_range Copying src first last dst d_first;
  Ok r.2.

(** [std::move(first, last, d_first)] into another array: the source and
    the destination array afterwards. *)
Definition std_move (src : list T) (first last : Z) (dst : list T) (d_first : Z)
    : result (list T * list T) :=
  transfer_range Moving src first last dst d_first.

Definition std_copy_backward (src : list T) (first last : Z) (dst : list T)
    (d_last : Z) : result (list T) :=
  r ← transfer_range_backward Copying src first last dst d_last;
  Ok r.2.

Definition std_move_backward (src : list T) (first last : Z) (dst : list T)
    (d_last : Z) : result (list T * list T) :=
  transfer_range_backward Moving src first last dst d_last.

(** The same algorithms with the destination in the array of the
    source. *)
Definition std_copy_within (a : list T) (first last d_first : Z) : result (list T) :=
  shift_range Copying a first last d_first.

Definition std_move_within (a : list T) (first last d_first : Z) : result (list T) :=
  shift_range Moving a first last d_first.

Definition std_copy_backward_within (a : list T) (first last d_last : Z)
    : result (list T) :=
  shift_range_backward Copying a first last d_last.

Definition std_move_backward_within (a : list T) (first last d_last : Z)
    : result (list T) :=
  shift_range_backward Moving a first last d_last.

(** [std::fill(first, last, value)]. *)
Definition std_fill (a : list T) (first last : Z) (value : T) : result (list T) :=
  n ← distance first last;
  for_loop n first (λ i a, ArrayPtr.set a i value) a.

(** [std::equal(first1, last1, first2, last2)] on random-access
    iterators: the lengths are compared first, then the elements until
    the first mismatch. *)
Fixpoint equal_loop (n : nat) (a : list T) (first1 : Z) (b : list T) (first2 : Z)
    : result bool :=
  match n with
  | O => Ok true
  | S n' =>
      x ← ArrayPtr.get a first1;
      y ← ArrayPtr.get b first2;
      if T_eqb x y then equal_loop n' a (first1 + 1) b (first2 + 1)
      else Ok false
  end.

Definition std_equal (a : list T) (first1 last1 : Z) (b : list T) (first2 last2 : Z)
    : result bool :=
  n1 ← distance first1 last1;
  n2 ← distance first2 last2;
  if bool_decide (n1 = n2) then equal_loop n1 a first1 b first2 else Ok false.

(** *** The class *)

Record SimpleVector : Type := {
  items_ : list T;
  size_ : Z;
  capacity_ : Z
}.

Definition set_items (v : SimpleVector) (a : list T) : SimpleVector :=
  {| items_ := a; size_ := size_ v; capacity_ := capacity_ v |}.
Definition set_size (v : SimpleVector) (n : Z) : SimpleVector :=
  {| items_ := items_ v; size_ := n; capacity_ := capacity_ v |}.
Definition set_capacity (v : SimpleVector) (n : Z) : SimpleVector :=
  {| items_ := items_ v; size_ := size_ v; capacity_ := n |}.

Definition GetSize (v : SimpleVector) : Z := size_ v.
Definition GetCapacity (v : SimpleVector) : Z := capacity_ v.
Definition IsEmpty (v : SimpleVector) : bool := bool_decide (size_ v = 0).

(** Iterators are offsets into [items_]: [begin()] is [items_.Get()] and
    [end()] is [items_.Get() + size_].  [cbegin] and [cend] are the same. *)
Definition begin (v : SimpleVector) : Z := 0.
Definition end_ (v : SimpleVector) : Z := 0 + size_ v.

(** [SimpleVector() noexcept = default] (line 31, with the member
    initialisers of lines 147-149). *)
Definition SimpleVector_default : SimpleVector :=
  {| items_ := []; size_ := 0; capacity_ := 0 |}.

(** [SimpleVector(size_t size, const Type& value)] (lines 152-159). *)
Definition SimpleVector_fill (size : Z) (value : T) : result SimpleVector :=
  let items := ArrayPtr.create dflt size in
  items ← std_fill items 0 (0 + size) value;
  Ok {| items_ := items; size_ := size; capacity_ := size |}.

(** [SimpleVector(size_t size, Type&& value)] (lines 161-172): every
    round of the loop moves from the same [value]. *)
Definition SimpleVector_fill_move (size : Z) (value : T) : result SimpleVector :=
  let items := ArrayPtr.create dflt size in
  let tmp := ArrayPtr.create dflt size in
  r ← for_range 0 size
        (λ i (s : list T * T),
           tmp ← ArrayPtr.set s.1 i s.2; Ok (tmp, moved s.2))
        (tmp, value);
  let (items, tmp) := ArrayPtr.swap items r.1 in
  Ok {| items_ := items; size_ := size; capacity_ := size |}.

(** [explicit SimpleVector(size_t size)] (lines 174-177) delegates to
    [SimpleVector(size, Type())]; the temporary selects the [Type&&]
    overload. *)
Definition SimpleVector_sized (size : Z) : result SimpleVector :=
  SimpleVector_fill_move size dflt.

(** [SimpleVector(std::initializer_list<Type> init)] (lines 179-186). *)
Definition SimpleVector_init (init : list T) : result SimpleVector :=
  let n := Z.of_nat (length init) in
  items ← std_copy init 0 n (ArrayPtr.create dflt n) 0;
  Ok {| items_ := items; size_ := n; capacity_ := n |}.

(** [SimpleVector(const SimpleVector& other)] (lines 188-197). *)
Definition SimpleVector_copy (other : SimpleVector) : result SimpleVector :=
  let items := ArrayPtr.create dflt (GetSize other) in
  let size := GetSize other in
  let capacity := GetCapacity other in
  tmp ← SimpleVector_sized size;
  tmp_items ← std_copy (items_ other) (begin other) (end_ other)
                 (items_ tmp) (begin tmp);
  let (items, _) := ArrayPtr.swap items tmp_items in
  Ok {| items_ := items; size_ := size; capacity_ := capacity |}.

(** [SimpleVector(SimpleVector&& other)] (lines 199-208): the new object
    and [other] after the call. *)
Definition SimpleVector_move (other : SimpleVector)
    : result (SimpleVector * SimpleVector) :=
  let items := ArrayPtr.create dflt (GetSize other) in
  let size := GetSize other in
  let capacity := GetCapacity other in
  r ← std_move (items_ other) (begin other) (end_ other) items 0;
  let other := set_items other r.1 in
  let other := set_size other 0 in
  let other := set_capacity other 0 in
  Ok ({| items_ := r.2; size_ := size; capacity_ := capacity |}, other).

(** [operator[]] (lines 260-270) and [At] (lines 272-292), read through
    the returned reference.  Neither assigns to a member. *)
Definition subscript (v : SimpleVector) (index : Z) : result T :=
  if bool_decide (index < size_ v) then ArrayPtr.get (items_ v) index
  else Undefined.

Definition At (v : SimpleVector) (index : Z) : result T :=
  if bool_decide (index >= size_ v) then Throw_out_of_range
  else ArrayPtr.get (items_ v) index.

(** [Clear()] (lines 294-297). *)
Definition Clear (v : SimpleVector) : SimpleVector := set_size v 0.

(** [operator=(SimpleVector&& rhs)] (lines 344-351), for [rhs] an object
    other than [*this]: both objects after the call. *)
Definition move_assign (this rhs : SimpleVector) : SimpleVector * SimpleVector :=
  let (items, rhs_items) := ArrayPtr.move_assign (items_ this) (items_ rhs) in
  let this := set_items this items in
  let rhs := set_items rhs rhs_items in
  let this := set_size this (size_ rhs) in
  let rhs := set_capacity rhs 0 in
  let rhs := set_size rhs 0 in
  (this, rhs).

(** [Resize(size_t new_size)] (lines 299-322). *)
Definition Resize (v : SimpleVector) (new_size : Z) : result SimpleVector :=
  v ← (if bool_decide (new_size >= size_ v) then
         if bool_decide (capacity_ v >= new_size) then
           items ← for_range (size_ v) new_size (λ i a, ArrayPtr.set a i dflt)
                      (items_ v);
           Ok (set_items v items)
         else
           tmp ← SimpleVector_sized (Z.max (wrap (capacity_ v * 2)) new_size);
           r ← std_move (items_ v) (begin v) (end_ v) (items_ tmp) (begin tmp);
           let v := set_items v r.1 in
           let tmp := set_items tmp r.2 in
           let tmp := set_size tmp new_size in
           tmp_items ← for_range (size_ v) new_size
                          (λ i a, ArrayPtr.set a i dflt) (items_ tmp);
           let tmp := set_items tmp tmp_items in
           let v := (move_assign v tmp).1 in
           Ok (set_capacity v (Z.max (wrap (capacity_ v * 2)) new_size))
       else Ok v);
  Ok (set_size v new_size).

(** [Reserve(size_t new_capacity)] (lines 324-332). *)
Definition Reserve (v : SimpleVector) (new_capacity : Z) : result SimpleVector :=
  if bool_decide (new_capacity > capacity_ v) then
    let new_cont_ := ArrayPtr.create dflt new_capacity in
    r ← std_move (items_ v) 0 (0 + size_ v) new_cont_ 0;
    let (items, _) := ArrayPtr.swap r.1 r.2 in
    Ok (set_capacity (set_items v items) new_capacity)
  else Ok v.

(** [SimpleVector(ReserveProxyObj obj)] (lines 210-213). *)
Definition SimpleVector_reserved (capacity_to_reserve : Z) : result SimpleVector :=
  Reserve SimpleVector_default capacity_to_reserve.

(** [PushBack(const Type&)] (lines 353-357) and [PushBack(Type&&)] (lines
    359-363) do the same to the container; they differ in what is left in
    the caller's [item]. *)
Definition PushBack (v : SimpleVector) (item : T) : result SimpleVector :=
  v ← Resize v (wrap (size_ v + 1));
  items ← ArrayPtr.set (items_ v) (wrap (size_ v - 1)) item;
  Ok (set_items v items).

(** [Insert(ConstIterator pos, Type&& value)] (lines 392-417): the
    container and the returned iterator. *)
Definition Insert (v : SimpleVector) (pos : Z) (value : T)
    : result (SimpleVector * Z) :=
  if negb (bool_decide (pos >= begin v ∧ pos <= end_ v)) then Undefined else
  let diffb := pos - begin v in
  let pos_ := begin v + diffb in
  if bool_decide (capacity_ v <= size_ v) then
    if bool_decide (capacity_ v = 0) then
      v ← PushBack v value;
      Ok (v, begin v)
    else
      let tmp := ArrayPtr.create dflt (wrap (capacity_ v * 2)) in
      r ← std_move (items_ v) (begin v) pos_ tmp 0;
      tmp ← ArrayPtr.set r.2 diffb value;
      r ← std_move_backward r.1 pos_ (end_ v) tmp (0 + size_ v + 1);
      let v := set_size (set_items v r.1) (wrap (size_ v + 1)) in
      let v := set_capacity v (wrap (capacity_ v * 2)) in
      let v := set_items v (ArrayPtr.move_assign (items_ v) r.2).1 in
      Ok (v, diffb)
  else
    items ← std_move_backward_within (items_ v) pos_ (end_ v) (end_ v + 1);
    items ← ArrayPtr.set items diffb value;
    let v := set_size (set_items v items) (wrap (size_ v + 1)) in
    Ok (v, diffb).

(** [Insert(ConstIterator pos, const Type& value)] (lines 365-390).  The
    destination of the in-place shift at line 386 is written
    [items_.Get() + std::next(this->end())], the sum of two pointers,
    which C++ gives no meaning: the overload cannot be instantiated.  The
    lines are embedded as they stand and line 386 as [Undefined]; no
    theorem below says what a call of this overload returns, only that it
    holds no [throw]. *)
Definition Insert_copy (v : SimpleVector) (pos : Z) (value : T)
    : result (SimpleVector * Z) :=
  if negb (bool_decide (pos >= begin v ∧ pos <= end_ v)) then Undefined else
  let diffb := pos - begin v in
  let pos_ := begin v + diffb in
  if bool_decide (capacity_ v <= size_ v) then
    if bool_decide (capacity_ v = 0) then
      v ← PushBack v value;
      Ok (v, begin v)
    else
      let tmp := ArrayPtr.create dflt (wrap (capacity_ v * 2)) in
      tmp ← std_copy (items_ v) (begin v) pos_ tmp 0;
      tmp ← ArrayPtr.set tmp diffb value;
      tmp ← std_copy_backward (items_ v) pos_ (end_ v) tmp (0 + size_ v + 1);
      let v := set_size v (wrap (size_ v + 1)) in
      let v := set_capacity v (wrap (capacity_ v * 2)) in
      let v := set_items v (ArrayPtr.swap (items_ v) tmp).1 in
      Ok (v, diffb)
  else
    Undefined.

(** [PopBack()] (lines 419-423). *)
Definition PopBack (v : SimpleVector) : result SimpleVector :=
  if IsEmpty v then Undefined else Ok (set_size v (wrap (size_ v - 1))).

(** [Erase(ConstIterator pos)] (lines 425-434). *)
Definition Erase (v : SimpleVector) (pos : Z) : result (SimpleVector * Z) :=
  if negb (bool_decide (pos >= begin v ∧ pos < end_ v)) then Undefined else
  if IsEmpty v then Undefined else
  let distance := pos - begin v in
  let pos_ := 0 + distance in
  items ← std_copy_within (items_ v) (pos_ + 1) (end_ v) pos_;
  Ok (set_size (set_items v items) (wrap (size_ v - 1)), pos_).

(** [Erase(Iterator pos)] (lines 436-443). *)
Definition Erase_move (v : SimpleVector) (pos : Z) : result (SimpleVector * Z) :=
  if negb (bool_decide (pos >= begin v ∧ pos < end_ v)) then Undefined else
  if IsEmpty v then Undefined else
  items ← std_move_within (items_ v) (pos + 1) (end_ v) pos;
  Ok (set_size (set_items v items) (wrap (size_ v - 1)), pos).

(** [swap(SimpleVector& other)] (lines 445-450), for [other] an object
    other than [*this]. *)
Definition swap (this other : SimpleVector) : SimpleVector * SimpleVector :=
  let (items, other_items) := ArrayPtr.swap (items_ this) (items_ other) in
  ({| items_ := items; size_ := size_ other; capacity_ := capacity_ other |},
   {| items_ := other_items; size_ := size_ this; capacity_ := capacity_ this |}).

(** *** Operations on references

    [operator==] and copy assignment look at the addresses of their
    operands, so these are stated over a store of objects. *)

Definition deref (st : gmap nat SimpleVector) (p : nat) : result SimpleVector :=
  match st !! p with
  | Some v => Ok v
  | None => Undefined
  end.

(** [operator==] (lines 452-455). *)
Definition operator_eq (st : gmap nat SimpleVector) (lhs rhs : nat) : result bool :=
  l ← deref st lhs;
  r ← deref st rhs;
  if bool_decide (lhs = rhs) then Ok true
  else std_equal (items_ l) (begin l) (end_ l) (items_ r) (begin r) (end_ r).

(** [operator!=] (lines 457-460). *)
Definition operator_ne (st : gmap nat SimpleVector) (lhs rhs : nat) : result bool :=
  b ← operator_eq st lhs rhs; Ok (negb b).

(** [operator=(const SimpleVector& rhs)] (lines 334-342). *)
Definition operator_assign (st : gmap nat SimpleVector) (this rhs : nat)
    : result (gmap nat SimpleVector) :=
  same ← operator_eq st this rhs;
  if (same : bool) then Ok st
  else
    r ← deref st rhs;
    tmp ← SimpleVector_copy r;
    t ← deref st this;
    Ok (<[this := (swap t tmp).1]> st).

(** [operator=(SimpleVector&& rhs)] on references; when both name one
    object, the assignments to [rhs] are the later ones. *)
Definition operator_assign_move (st : gmap nat SimpleVector) (this rhs : nat)
    : result (gmap nat SimpleVector) :=
  t ← deref st this;
  r ← deref st rhs;
  let (t, r) := move_assign t r in
  Ok (<[rhs := r]> (<[this := t]> st)).

(** [swap(SimpleVector& other)] on references. *)
Definition swap_ref (st : gmap nat SimpleVector) (this other : nat)
    : result (gmap nat SimpleVector) :=
  t ← deref st this;
  o ← deref st other;
  let (t, o) := swap t o in
  Ok (<[other := o]> (<[this := t]> st)).

(** *** What the claims speak about *)

(** The sequence [begin() .. end()] runs over. *)
Definition elements (v : SimpleVector) : list T :=
  take (Z.to_nat (size_ v)) (items_ v).

(** [size_] is a [size_t], and the live elements lie in the allocated
    array. *)
Definition in_storage (v : SimpleVector) : Prop :=
  0 ≤ size_ v ≤ Z.of_nat (length (items_ v)) ∧ size_ v < 2 ^ size_t_bits.

(** The invariant of the data model: the live elements fit the capacity,
    the capacity fits the allocated array, and the array is one that can
    be allocated (at most [PTRDIFF_MAX] elements). *)
Definition valid (v : SimpleVector) : Prop :=
  0 ≤ size_ v ≤ capacity_ v ∧
  capacity_ v ≤ Z.of_nat (length (items_ v)) ∧
  capacity_ v < 2 ^ (size_t_bits - 1).

(** The two overloads of [Insert] and of [Erase], by what they do to the
    elements they shift. *)
Definition Insert_by (h : how) : SimpleVector → Z → T → result (SimpleVector * Z) :=
  match h with
  | Copying => Insert_copy
  | Moving => Insert
  end.

Definition Erase_by (h : how) : SimpleVector → Z → result (SimpleVector * Z) :=
  match h with
  | Copying => Erase
  | Moving => Erase_move
  end.

(** The first [n + 1] slots of [a'] are those of [a] with [x] put in at
    [pos]. *)
Definition inserted (a a' : list T) (pos : Z) (x : T) (n : Z) : Prop :=
  ∀ j, 0 ≤ j < n + 1 →
       slot a' j =
       if bool_decide (j < pos) then slot a j
       else if bool_decide (j = pos) then Some x
            else slot a (j - 1).

End SimpleVector.

(** *** Containers of [int]

    Moving from an [int] leaves it as it is. *)

(** [SimpleVector<int>{1, 2, 3}] *)
Definition v_123 : @SimpleVector Z :=
  {| items_ := [1; 2; 3]; size_ := 3; capacity_ := 3 |}.

(** ... after [PopBack()] *)
Definition v_12 : @SimpleVector Z :=
  {| items_ := [1; 2; 3]; size_ := 2; capacity_ := 3 |}.

(** Two objects: a default-constructed one at address 0 and [{1, 2, 3}]
    at address 1. *)
Definition two_objects : gmap nat (@SimpleVector Z) :=
  <[0%nat := SimpleVector_default]> (<[1%nat := v_123]> ∅).

(** What the copy constructor makes of [v_12]: two slots, capacity 3. *)
Definition copy_of_v_12 : @SimpleVector Z :=
  {| items_ := [1; 2]; size_ := 2; capacity_ := 3 |}.

(** What a default-constructed object is after [= std::move(b)] with [b]
    holding [{1, 2, 3}]: size 3, capacity 0. *)
Definition default_assigned_123 : @SimpleVector Z :=
  {| items_ := [1; 2; 3]; size_ := 3; capacity_ := 0 |}.

(** [SimpleVector<int>{7}] *)
Definition v_7 : @SimpleVector Z :=
  {| items_ := [7]; size_ := 1; capacity_ := 1 |}.

(** ... after [= std::move(b)] with [b] holding [{1, 2, 3}]: size 3,
    capacity 1. *)
Definition v_7_assigned_123 : @SimpleVector Z :=
  {| items_ := [1; 2; 3]; size_ := 3; capacity_ := 1 |}.

(** [{7}] at address 0 and [{1, 2, 3}] at address 1. *)
Definition seven_and_123 : gmap nat (@SimpleVector Z) :=
  <[0%nat := v_7]> (<[1%nat := v_123]> ∅).

(** *** The ordering operators (lines 462-480)

    [std::lexicographical_compare(first1, last1, first2, last2)] walks
    both ranges while neither is exhausted and answers at the first
    position where one element is less than the other; when it runs out
    of one range, the answer is whether the first range ended and the
    second did not. *)

Section Ordering.
Context {T : Type}.
(** The element type's [operator<]. *)
Variable T_ltb : T → T → bool.

Fixpoint lexicographical_loop (n : nat) (a : list T) (first1 : Z)
    (b : list T) (first2 : Z) : result (option bool) :=
  match n with
  | O => Ok None
  | S n' =>
      x ← ArrayPtr.get a first1;
      y ← ArrayPtr.get b first2;
      if T_ltb x y then Ok (Some true)
      else if T_ltb y x then Ok (Some false)
      else lexicographical_loop n' a (first1 + 1) b (first2 + 1)
  end.

Definition std_lexicographical_compare (a : list T) (first1 last1 : Z)
    (b : list T) (first2 last2 : Z) : result bool :=
  n1 ← distance first1 last1;
  n2 ← distance first2 last2;
  r ← lexicographical_loop (n1 `min` n2) a first1 b first2;
  match r with
  | Some answer => Ok answer
  | None => Ok (bool_decide (n1 < n2)%nat)
  end.

(** [operator<] (lines 462-465). *)
Definition operator_lt (lhs rhs : @SimpleVector T) : result bool :=
  std_lexicographical_compare (items_ lhs) (begin lhs) (end_ lhs)
    (items_ rhs) (begin rhs) (end_ rhs).

(** [operator<=] (lines 467-470). *)
Definition operator_le (lhs rhs : @SimpleVector T) : result bool :=
  b ← operator_lt rhs lhs; Ok (negb b).

(** [operator>] (lines 472-475). *)
Definition operator_gt (lhs rhs : @SimpleVector T) : result bool :=
  operator_lt rhs lhs.

(** [operator>=] (lines 477-480). *)
Definition operator_ge (lhs rhs : @SimpleVector T) : result bool :=
  b ← operator_lt lhs rhs; Ok (negb b).

(** The lexicographic order on sequences, for stating what [operator<]
    computes. *)
Fixpoint lex_lt (l1 l2 : list T) : bool :=
  match l1, l2 with
  | _, [] => false
  | [], _ :: _ => true
  | x :: l1', y :: l2' =>
      if T_ltb x y then true
      else if T_ltb y x then false
      else lex_lt l1' l2'
  end.

End Ordering.

(** *** Callers *)

Section Callers.
Context {T : Type}.
Variable dflt : T.
Variable moved : T → T.

(** [for (const auto& x : l) v.PushBack(x);] *)
Fixpoint PushBack_all (v : @SimpleVector T) (l : list T) : result SimpleVector :=
  match l with
  | [] => Ok v
  | x :: l' => v' ← PushBack dflt moved v x; PushBack_all v' l'
  end.

(** The array is at least as long as the capacity says, and the live
    elements fit the capacity. *)
Definition fits (v : @SimpleVector T) : Prop :=
  0 ≤ size_ v ≤ capacity_ v ∧ capacity_ v ≤ Z.of_nat (length (items_ v)).

End Callers.

(** * Properties *)

(** ** Arrays and loops *)

Section ArrayFacts.
Context {T : Type}.
Implicit Types (a : list T) (i j : Z) (x : T).

Lemma slot_Some a i x : slot a i = Some x → 0 ≤ i < Z.of_nat (length a).
Proof.
  unfold slot. case_bool_decide as Hi; [|done].
  intros Hx%lookup_lt_Some. lia.
Qed.

Lemma slot_is_Some a i : 0 ≤ i < Z.of_nat (length a) → ∃ x, slot a i = Some x.
Proof.
  intros Hi. unfold slot. rewrite bool_decide_eq_true_2 by lia.
  destruct (lookup_lt_is_Some_2 a (Z.to_nat i)) as [x Hx]; [lia|]. eauto.
Qed.

Lemma slot_None a i : ¬ (0 ≤ i < Z.of_nat (length a)) → slot a i = None.
Proof.
  intros Hi. destruct (slot a i) as [x|] eqn:E; [|done].
  apply slot_Some in E. lia.
Qed.

Lemma slot_insert a i j x :
  0 ≤ i < Z.of_nat (length a) →
  slot (<[Z.to_nat i := x]> a) j = if bool_decide (j = i) then Some x else slot a j.
Proof.
  intros Hi. unfold slot. destruct (decide (j = i)) as [->|Hne].
  - rewrite !bool_decide_eq_true_2 by (done || lia).
    apply list_lookup_insert_eq. lia.
  - rewrite (bool_decide_eq_false_2 (j = i)) by done.
    case_bool_decide; [|done].
    apply list_lookup_insert_ne. lia.
Qed.

Lemma slot_take a (n : nat) j :
  slot (take n a) j = if bool_decide (j < Z.of_nat n) then slot a j else None.
Proof.
  unfold slot. case_bool_decide.
  - case_bool_decide.
    + apply lookup_take_lt. lia.
    + apply lookup_take_ge. lia.
  - by case_bool_decide.
Qed.

Lemma slot_replicate (n : nat) x j :
  slot (replicate n x) j = if bool_decide (0 ≤ j < Z.of_nat n) then Some x else None.
Proof.
  unfold slot. case_bool_decide.
  - case_bool_decide.
    + apply lookup_replicate_2. lia.
    + apply lookup_replicate_None. lia.
  - rewrite bool_decide_eq_false_2; [done|lia].
Qed.

Lemma slot_ext a b : (∀ j, slot a j = slot b j) → a = b.
Proof.
  intros H. apply list_eq. intros k.
  specialize (H (Z.of_nat k)). unfold slot in H.
  rewrite bool_decide_eq_true_2 in H by lia.
  by rewrite Nat2Z.id in H.
Qed.

Lemma get_slot a i x : slot a i = Some x → ArrayPtr.get a i = Ok x.
Proof.
  unfold slot, ArrayPtr.get. case_bool_decide; [|done]. by intros ->.
Qed.

Lemma set_in_range a i x :
  0 ≤ i < Z.of_nat (length a) → ArrayPtr.set a i x = Ok (<[Z.to_nat i := x]> a).
Proof. intros Hi. unfold ArrayPtr.set. by rewrite bool_decide_eq_true_2. Qed.

Lemma wrap_small z : 0 ≤ z < 2 ^ size_t_bits → wrap z = z.
Proof. apply Z.mod_small. Qed.

End ArrayFacts.

(** Case analysis on the tests left in a goal about slots. *)
Ltac slots :=
  repeat case_bool_decide; subst; try lia; try done;
  try (f_equal; lia).

Section LoopFacts.
Context {T : Type} (moved : T → T).
Implicit Types (a src dst : list T) (h : how) (x : T).

Lemma release_spec h a i x :
  slot a i = Some x →
  ∃ a', release moved h a i x = Ok a' ∧ length a' = length a ∧
    ∀ j, slot a' j =
         if bool_decide (j = i) then Some (left_behind moved h x) else slot a j.
Proof.
  intros Hx. pose proof (slot_Some _ _ _ Hx) as Hi. destruct h; simpl.
  - exists a. split; [done|]. split; [done|].
    intros j. case_bool_decide; [by subst|done].
  - exists (<[Z.to_nat i := moved x]> a). rewrite set_in_range by done.
    split; [done|]. split; [apply length_insert|].
    intros j. by apply slot_insert.
Qed.

Lemma transfer_spec h n : ∀ src first dst d,
  0 ≤ first → first + Z.of_nat n ≤ Z.of_nat (length src) →
  0 ≤ d → d + Z.of_nat n ≤ Z.of_nat (length dst) →
  ∃ src' dst', transfer moved h n src first dst d = Ok (src', dst') ∧
    length src' = length src ∧ length dst' = length dst ∧
    (∀ j, slot dst' j =
          if bool_decide (d ≤ j < d + Z.of_nat n) then slot src (j - d + first)
          else slot dst j) ∧
    (∀ j, slot src' j =
          if bool_decide (first ≤ j < first + Z.of_nat n)
          then left_behind moved h <$> slot src j
          else slot src j).
Proof.
  induction n as [|n IH]; intros src first dst d Hf Hfn Hd Hdn.
  - exists src, dst. simpl.
    repeat split; try done; intros j; rewrite bool_decide_eq_false_2; (done || lia).
  - destruct (slot_is_Some src first) as [x Hx]; [lia|].
    simpl. rewrite (get_slot _ _ _ Hx). simpl.
    rewrite set_in_range by lia. simpl.
    destruct (release_spec h src first x Hx) as (src1 & -> & Hlen1 & Hsrc1). simpl.
    destruct (IH src1 (first + 1) (<[Z.to_nat d := x]> dst) (d + 1))
      as (src' & dst' & -> & Hl1 & Hl2 & Hdst & Hsrc);
      try (rewrite ?length_insert; lia).
    exists src', dst'. split; [done|].
    rewrite Hl1, Hl2, length_insert. split; [done|]. split; [done|].
    split; intros j.
    + rewrite Hdst, slot_insert, Hsrc1 by lia.
      slots. rewrite <- Hx. f_equal. lia.
    + rewrite Hsrc, Hsrc1. slots. by rewrite Hx.
Qed.

Lemma transfer_backward_spec h n : ∀ src last dst d_last,
  Z.of_nat n ≤ last ≤ Z.of_nat (length src) →
  Z.of_nat n ≤ d_last ≤ Z.of_nat (length dst) →
  ∃ src' dst', transfer_backward moved h n src last dst d_last = Ok (src', dst') ∧
    length src' = length src ∧ length dst' = length dst ∧
    (∀ j, slot dst' j =
          if bool_decide (d_last - Z.of_nat n ≤ j < d_last)
          then slot src (j - d_last + last)
          else slot dst j) ∧
    (∀ j, slot src' j =
          if bool_decide (last - Z.of_nat n ≤ j < last)
          then left_behind moved h <$> slot src j
          else slot src j).
Proof.
  induction n as [|n IH]; intros src last dst d_last Hl Hd.
  - exists src, dst. simpl.
    repeat split; try done; intros j; rewrite bool_decide_eq_false_2; (done || lia).
  - destruct (slot_is_Some src (last - 1)) as [x Hx]; [lia|].
    simpl. rewrite (get_slot _ _ _ Hx). simpl.
    rewrite set_in_range by lia. simpl.
    destruct (release_spec h src (last - 1) x Hx) as (src1 & -> & Hlen1 & Hsrc1).
    simpl.
    destruct (IH src1 (last - 1) (<[Z.to_nat (d_last - 1) := x]> dst) (d_last - 1))
      as (src' & dst' & -> & Hl1 & Hl2 & Hdst & Hsrc);
      try (rewrite ?length_insert; lia).
    exists src', dst'. split; [done|].
    rewrite Hl1, Hl2, length_insert. split; [done|]. split; [done|].
    split; intros j.
    + rewrite Hdst, slot_insert, Hsrc1 by lia.
      slots. rewrite <- Hx. f_equal. lia.
    + rewrite Hsrc, Hsrc1. slots. by rewrite Hx.
Qed.

Lemma shift_spec h n : ∀ a first d,
  0 ≤ d < first → first + Z.of_nat n ≤ Z.of_nat (length a) →
  ∃ a', shift moved h n a first d = Ok a' ∧ length a' = length a ∧
    ∀ j, slot a' j =
         if bool_decide (d ≤ j < d + Z.of_nat n) then slot a (j - d + first)
         else if bool_decide (first ≤ j < first + Z.of_nat n)
              then left_behind moved h <$> slot a j
              else slot a j.
Proof.
  induction n as [|n IH]; intros a first d Hd Hf.
  - exists a. simpl. split; [done|]. split; [done|].
    intros j. rewrite !bool_decide_eq_false_2; (done || lia).
  - destruct (slot_is_Some a first) as [x Hx]; [lia|].
    simpl. rewrite (get_slot _ _ _ Hx). simpl.
    rewrite set_in_range by lia. simpl.
    destruct (release_spec h (<[Z.to_nat d := x]> a) first x)
      as (a2 & -> & Hlen2 & Ha2).
    { rewrite slot_insert by lia. by rewrite bool_decide_eq_false_2 by lia. }
    simpl. rewrite length_insert in Hlen2.
    destruct (IH a2 (first + 1) (d + 1)) as (a' & -> & Hl & Ha'); try lia.
    exists a'. split; [done|]. split; [lia|].
    intros j. rewrite Ha', !Ha2, !slot_insert by lia.
    slots; try (by rewrite Hx); rewrite <- Hx; f_equal; lia.
Qed.

Lemma shift_backward_spec h n : ∀ a last d_last,
  Z.of_nat n ≤ last < d_last → d_last ≤ Z.of_nat (length a) →
  ∃ a', shift_backward moved h n a last d_last = Ok a' ∧ length a' = length a ∧
    ∀ j, slot a' j =
         if bool_decide (d_last - Z.of_nat n ≤ j < d_last)
         then slot a (j - d_last + last)
         else if bool_decide (last - Z.of_nat n ≤ j < last)
              then left_behind moved h <$> slot a j
              else slot a j.
Proof.
  induction n as [|n IH]; intros a last d_last Hl Hd.
  - exists a. simpl. split; [done|]. split; [done|].
    intros j. rewrite !bool_decide_eq_false_2; (done || lia).
  - destruct (slot_is_Some a (last - 1)) as [x Hx]; [lia|].
    simpl. rewrite (get_slot _ _ _ Hx). simpl.
    rewrite set_in_range by lia. simpl.
    destruct (release_spec h (<[Z.to_nat (d_last - 1) := x]> a) (last - 1) x)
      as (a2 & -> & Hlen2 & Ha2).
    { rewrite slot_insert by lia. by rewrite bool_decide_eq_false_2 by lia. }
    simpl. rewrite length_insert in Hlen2.
    destruct (IH a2 (last - 1) (d_last - 1)) as (a' & -> & Hl' & Ha'); try lia.
    exists a'. split; [done|]. split; [lia|].
    intros j. rewrite Ha', !Ha2, !slot_insert by lia.
    slots; try (by rewrite Hx); rewrite <- Hx; f_equal; lia.
Qed.

Lemma fill_loop_spec x n : ∀ a lo,
  0 ≤ lo → lo + Z.of_nat n ≤ Z.of_nat (length a) →
  ∃ a', for_loop n lo (λ i a, ArrayPtr.set a i x) a = Ok a' ∧
    length a' = length a ∧
    ∀ j, slot a' j =
         if bool_decide (lo ≤ j < lo + Z.of_nat n) then Some x else slot a j.
Proof.
  induction n as [|n IH]; intros a lo Hlo Hn.
  - exists a. simpl. split; [done|]. split; [done|].
    intros j. rewrite bool_decide_eq_false_2; (done || lia).
  - simpl. rewrite set_in_range by lia. simpl.
    destruct (IH (<[Z.to_nat lo := x]> a) (lo + 1))
      as (a' & -> & Hl & Ha'); try (rewrite ?length_insert; lia).
    exists a'. split; [done|]. rewrite Hl, length_insert. split; [done|].
    intros j. rewrite Ha', slot_insert by lia. slots.
Qed.

Lemma broadcast_loop_length n : ∀ (tmp : list T) value lo,
  0 ≤ lo → lo + Z.of_nat n ≤ Z.of_nat (length tmp) →
  ∃ r, for_loop n lo
         (λ i (s : list T * T), tmp ← ArrayPtr.set s.1 i s.2; Ok (tmp, moved s.2))
         (tmp, value) = Ok r ∧
       length r.1 = length tmp.
Proof.
  induction n as [|n IH]; intros tmp value lo Hlo Hn.
  - exists (tmp, value). by simpl.
  - simpl. rewrite set_in_range by lia. simpl.
    destruct (IH (<[Z.to_nat lo := value]> tmp) (moved value) (lo + 1))
      as (r & -> & Hl); try (rewrite ?length_insert; lia).
    exists r. split; [done|]. by rewrite Hl, length_insert.
Qed.

Lemma equal_loop_total T_eqb n : ∀ a first1 (b : list T) first2,
  0 ≤ first1 → first1 + Z.of_nat n ≤ Z.of_nat (length a) →
  0 ≤ first2 → first2 + Z.of_nat n ≤ Z.of_nat (length b) →
  ∃ r, equal_loop T_eqb n a first1 b first2 = Ok r.
Proof.
  induction n as [|n IH]; intros a first1 b first2 H1 H1n H2 H2n.
  - by exists true.
  - destruct (slot_is_Some a first1) as [x Hx]; [lia|].
    destruct (slot_is_Some b first2) as [y Hy]; [lia|].
    simpl. rewrite (get_slot _ _ _ Hx), (get_slot _ _ _ Hy). simpl.
    destruct (T_eqb x y); [|by exists false].
    apply IH; lia.
Qed.

Lemma equal_loop_same T_eqb n : ∀ a first1 (b : list T) first2,
  (∀ x, T_eqb x x = true) →
  0 ≤ first1 → first1 + Z.of_nat n ≤ Z.of_nat (length a) →
  0 ≤ first2 →
  (∀ k, 0 ≤ k < Z.of_nat n → slot a (first1 + k) = slot b (first2 + k)) →
  equal_loop T_eqb n a first1 b first2 = Ok true.
Proof.
  induction n as [|n IH]; intros a first1 b first2 Hrefl H1 H1n H2 Hsame.
  - done.
  - destruct (slot_is_Some a first1) as [x Hx]; [lia|].
    assert (slot b first2 = Some x) as Hy.
    { rewrite <- Hx. specialize (Hsame 0). rewrite !Z.add_0_r in Hsame.
      symmetry. apply Hsame. lia. }
    simpl. rewrite (get_slot _ _ _ Hx), (get_slot _ _ _ Hy). simpl.
    rewrite Hrefl. apply IH; try done; try lia.
    intros k Hk. rewrite <- !Z.add_assoc. apply Hsame. lia.
Qed.

Lemma distance_ok first last :
  first ≤ last → distance first last = Ok (Z.to_nat (last - first)).
Proof. intros H. unfold distance. by rewrite bool_decide_eq_true_2. Qed.

Lemma transfer_range_spec h src first last dst d :
  0 ≤ first ≤ last → last ≤ Z.of_nat (length src) →
  0 ≤ d → d + (last - first) ≤ Z.of_nat (length dst) →
  ∃ src' dst', transfer_range moved h src first last dst d = Ok (src', dst') ∧
    length src' = length src ∧ length dst' = length dst ∧
    (∀ j, slot dst' j =
          if bool_decide (d ≤ j < d + (last - first)) then slot src (j - d + first)
          else slot dst j) ∧
    (∀ j, slot src' j =
          if bool_decide (first ≤ j < last) then left_behind moved h <$> slot src j
          else slot src j).
Proof.
  intros Hf Hl Hd Hdn. unfold transfer_range.
  rewrite distance_ok by lia. simpl.
  destruct (transfer_spec h (Z.to_nat (last - first)) src first dst d)
    as (src' & dst' & -> & Hl1 & Hl2 & Hdst & Hsrc); try lia.
  rewrite Z2Nat.id in * by lia.
  exists src', dst'. repeat split; try done.
  intros j. rewrite Hsrc. slots.
Qed.

Lemma transfer_range_backward_spec h src first last dst d_last :
  0 ≤ first ≤ last → last ≤ Z.of_nat (length src) →
  last - first ≤ d_last ≤ Z.of_nat (length dst) →
  ∃ src' dst',
    transfer_range_backward moved h src first last dst d_last = Ok (src', dst') ∧
    length src' = length src ∧ length dst' = length dst ∧
    (∀ j, slot dst' j =
          if bool_decide (d_last - (last - first) ≤ j < d_last)
          then slot src (j - d_last + last)
          else slot dst j) ∧
    (∀ j, slot src' j =
          if bool_decide (first ≤ j < last) then left_behind moved h <$> slot src j
          else slot src j).
Proof.
  intros Hf Hl Hd. unfold transfer_range_backward.
  rewrite distance_ok by lia. simpl.
  destruct (transfer_backward_spec h (Z.to_nat (last - first)) src last dst d_last)
    as (src' & dst' & -> & Hl1 & Hl2 & Hdst & Hsrc); try lia.
  rewrite Z2Nat.id in * by lia.
  exists src', dst'. repeat split; try done.
  intros j. rewrite Hsrc. slots.
Qed.

Lemma shift_range_spec h a first last d :
  0 ≤ d < first → first ≤ last ≤ Z.of_nat (length a) →
  ∃ a', shift_range moved h a first last d = Ok a' ∧ length a' = length a ∧
    ∀ j, slot a' j =
         if bool_decide (d ≤ j < d + (last - first)) then slot a (j - d + first)
         else if bool_decide (first ≤ j < last)
              then left_behind moved h <$> slot a j
              else slot a j.
Proof.
  intros Hd Hl. unfold shift_range.
  rewrite distance_ok by lia. simpl.
  destruct (shift_spec h (Z.to_nat (last - first)) a first d)
    as (a' & -> & Hl1 & Ha'); try lia.
  rewrite Z2Nat.id in * by lia.
  exists a'. repeat split; try done.
  intros j. rewrite Ha'. slots.
Qed.

Lemma shift_range_backward_spec h a first last d_last :
  0 ≤ first ≤ last → last < d_last ≤ Z.of_nat (length a) →
  ∃ a', shift_range_backward moved h a first last d_last = Ok a' ∧
    length a' = length a ∧
    ∀ j, slot a' j =
         if bool_decide (d_last - (last - first) ≤ j < d_last)
         then slot a (j - d_last + last)
         else if bool_decide (first ≤ j < last)
              then left_behind moved h <$> slot a j
              else slot a j.
Proof.
  intros Hf Hl. unfold shift_range_backward.
  rewrite distance_ok by lia. simpl.
  destruct (shift_backward_spec h (Z.to_nat (last - first)) a last d_last)
    as (a' & -> & Hl1 & Ha'); try lia.
  rewrite Z2Nat.id in * by lia.
  exists a'. repeat split; try done.
  intros j. rewrite Ha'. slots.
Qed.

Lemma default_fill_spec x a lo hi :
  0 ≤ lo ≤ hi → hi ≤ Z.of_nat (length a) →
  ∃ a', for_loop (Z.to_nat (hi - lo)) lo (λ i a, ArrayPtr.set a i x) a = Ok a' ∧
    length a' = length a ∧
    ∀ j, slot a' j = if bool_decide (lo ≤ j < hi) then Some x else slot a j.
Proof.
  intros Hlo Hhi.
  destruct (fill_loop_spec x (Z.to_nat (hi - lo)) a lo)
    as (a' & -> & Hl1 & Ha'); try lia.
  rewrite Z2Nat.id in * by lia.
  exists a'. repeat split; try done.
  intros j. rewrite Ha'. slots.
Qed.

End LoopFacts.

(** ** The container *)

(** Unfolds the arithmetic of [size_t] for [lia]. *)
Ltac sizes :=
  unfold valid, wrap, size_t_bits, GetSize, GetCapacity, begin, end_ in *;
  simpl in *;
  change (2 ^ 64) with 18446744073709551616 in *;
  change (2 ^ (64 - 1)) with 9223372036854775808 in *.

Section VectorFacts.
Context {T : Type} (dflt : T) (moved : T → T) (T_eqb : T → T → bool).
Implicit Types (v w : @SimpleVector T) (x : T).

Lemma elements_length v :
  0 ≤ size_ v ≤ Z.of_nat (length (items_ v)) →
  Z.of_nat (length (elements v)) = size_ v.
Proof. intros H. unfold elements. rewrite length_take. lia. Qed.

Lemma slot_elements v j :
  slot (elements v) j = if bool_decide (j < size_ v) then slot (items_ v) j else None.
Proof.
  unfold elements. rewrite slot_take.
  destruct (decide (0 ≤ j)) as [Hj|Hj].
  - slots.
  - rewrite !slot_None by lia. by repeat case_bool_decide.
Qed.

Lemma elements_ext v w :
  size_ v = size_ w →
  (∀ j, 0 ≤ j < size_ v → slot (items_ v) j = slot (items_ w) j) →
  elements v = elements w.
Proof.
  intros Hs H. apply slot_ext. intros j. rewrite !slot_elements, <- Hs.
  destruct (decide (0 ≤ j)) as [Hj|Hj].
  - case_bool_decide; [|done]. apply H. lia.
  - rewrite !slot_None by lia. by case_bool_decide.
Qed.


Lemma SimpleVector_sized_spec n :
  0 ≤ n →
  ∃ tmp, SimpleVector_sized dflt moved n = Ok tmp ∧
    size_ tmp = n ∧ capacity_ tmp = n ∧ Z.of_nat (length (items_ tmp)) = n.
Proof.
  intros Hn. unfold SimpleVector_sized, SimpleVector_fill_move, for_range.
  destruct (broadcast_loop_length moved (Z.to_nat (n - 0)) (ArrayPtr.create dflt n)
              dflt 0) as (r & -> & Hl).
  { lia. }
  { unfold ArrayPtr.create. rewrite length_replicate. lia. }
  simpl. eexists. split; [done|]. simpl. repeat split.
  rewrite Hl. unfold ArrayPtr.create. rewrite length_replicate. lia.
Qed.

Lemma Resize_shrink v n :
  0 ≤ n < size_ v →
  Resize dflt moved v n = Ok (set_size v n).
Proof.
  intros Hn. unfold Resize.
  rewrite bool_decide_eq_false_2 by lia. done.
Qed.

Lemma Resize_within v n :
  valid v → size_ v ≤ n ≤ capacity_ v →
  ∃ v', Resize dflt moved v n = Ok v' ∧
    size_ v' = n ∧ capacity_ v' = capacity_ v ∧
    length (items_ v') = length (items_ v) ∧
    ∀ j, slot (items_ v') j =
         if bool_decide (size_ v ≤ j < n) then Some dflt else slot (items_ v) j.
Proof.
  intros Hv Hn. unfold Resize.
  rewrite !bool_decide_eq_true_2 by lia. unfold for_range.
  destruct (default_fill_spec dflt (items_ v) (size_ v) n)
    as (a' & -> & Hl & Ha'); [sizes; lia..|].
  simpl. eexists. split; [done|]. by simpl.
Qed.

Lemma Resize_grow v n :
  valid v → capacity_ v < n < 2 ^ size_t_bits →
  ∃ v', Resize dflt moved v n = Ok v' ∧
    size_ v' = n ∧ capacity_ v' = Z.max (2 * capacity_ v) n ∧
    Z.of_nat (length (items_ v')) = Z.max (2 * capacity_ v) n ∧
    ∀ j, 0 ≤ j < n →
         slot (items_ v') j =
         if bool_decide (j < size_ v) then slot (items_ v) j else Some dflt.
Proof.
  intros Hv Hn. unfold Resize.
  rewrite bool_decide_eq_true_2 by (sizes; lia).
  rewrite bool_decide_eq_false_2 by lia.
  assert (wrap (capacity_ v * 2) = 2 * capacity_ v) as ->.
  { rewrite wrap_small; sizes; lia. }
  destruct (SimpleVector_sized_spec (Z.max (2 * capacity_ v) n))
    as (tmp & -> & Hts & Htc & Htl); [sizes; lia|].
  simpl. unfold std_move.
  destruct (transfer_range_spec moved Moving (items_ v) (begin v) (end_ v)
              (items_ tmp) (begin tmp))
    as (old & new & -> & Hl1 & Hl2 & Hnew & Hold); [sizes; lia..|].
  simpl. unfold for_range.
  destruct (default_fill_spec dflt new (size_ v) n)
    as (a' & -> & Hl & Ha'); [sizes; lia..|].
  simpl. eexists. split; [done|]. simpl.
  split; [done|]. split.
  { rewrite wrap_small; sizes; lia. }
  split; [lia|].
  intros j Hj. rewrite Ha', Hnew. sizes. slots.
Qed.

Lemma PushBack_spec v x :
  valid v →
  ∃ v', PushBack dflt moved v x = Ok v' ∧
    size_ v' = size_ v + 1 ∧
    capacity_ v' =
      (if bool_decide (size_ v < capacity_ v) then capacity_ v
       else Z.max (2 * capacity_ v) (size_ v + 1)) ∧
    capacity_ v' ≤ Z.of_nat (length (items_ v')) ∧
    ∀ j, 0 ≤ j < size_ v + 1 →
         slot (items_ v') j =
         if bool_decide (j < size_ v) then slot (items_ v) j else Some x.
Proof.
  intros Hv. unfold PushBack.
  rewrite (wrap_small (size_ v + 1)) by (sizes; lia).
  destruct (decide (size_ v < capacity_ v)) as [Hlt|Hge].
  - destruct (Resize_within v (size_ v + 1)) as (v1 & -> & Hs & Hc & Hl & Hv1);
      [done|lia|].
    simpl. rewrite Hs, wrap_small by (sizes; lia).
    rewrite set_in_range by (sizes; lia). simpl.
    eexists. split; [done|]. simpl.
    rewrite bool_decide_eq_true_2 by done. rewrite length_insert.
    split; [done|]. split; [done|]. split; [sizes; lia|].
    intros j Hj. rewrite slot_insert, Hv1 by (sizes; lia). slots.
  - destruct (Resize_grow v (size_ v + 1)) as (v1 & -> & Hs & Hc & Hl & Hv1);
      [done|sizes; lia|].
    simpl. rewrite Hs, wrap_small by (sizes; lia).
    rewrite set_in_range by (sizes; lia). simpl.
    eexists. split; [done|]. simpl.
    rewrite bool_decide_eq_false_2 by done. rewrite length_insert.
    split; [done|]. split; [done|]. split; [lia|].
    intros j Hj. rewrite slot_insert, Hv1 by (sizes; lia). slots.
Qed.

Lemma PopBack_spec v :
  0 < size_ v < 2 ^ size_t_bits →
  PopBack v = Ok (set_size v (size_ v - 1)).
Proof.
  intros Hs. unfold PopBack, IsEmpty.
  rewrite bool_decide_eq_false_2 by lia.
  rewrite wrap_small by (sizes; lia). done.
Qed.

Lemma Erase_spec v pos :
  0 ≤ pos < size_ v → size_ v ≤ Z.of_nat (length (items_ v)) →
  size_ v < 2 ^ size_t_bits →
  ∃ v', Erase moved v pos = Ok (v', pos) ∧
    size_ v' = size_ v - 1 ∧ capacity_ v' = capacity_ v ∧
    length (items_ v') = length (items_ v) ∧
    ∀ j, 0 ≤ j < size_ v - 1 →
         slot (items_ v') j =
         if bool_decide (j < pos) then slot (items_ v) j else slot (items_ v) (j + 1).
Proof.
  intros Hp Hl Hs. unfold Erase, IsEmpty, begin, end_, std_copy_within.
  rewrite bool_decide_eq_true_2 by lia. simpl.
  rewrite bool_decide_eq_false_2 by lia.
  replace (0 + (pos - 0)) with pos by lia.
  destruct (shift_range_spec moved Copying (items_ v) (pos + 1) (0 + size_ v) pos)
    as (a' & -> & Hl' & Ha'); [lia..|].
  simpl. rewrite wrap_small by (sizes; lia).
  eexists. split; [done|]. simpl. repeat split; try done.
  intros j Hj. rewrite Ha'. slots.
Qed.

Lemma Erase_move_spec v pos :
  0 ≤ pos < size_ v → size_ v ≤ Z.of_nat (length (items_ v)) →
  size_ v < 2 ^ size_t_bits →
  ∃ v', Erase_move moved v pos = Ok (v', pos) ∧
    size_ v' = size_ v - 1 ∧ capacity_ v' = capacity_ v ∧
    length (items_ v') = length (items_ v) ∧
    ∀ j, 0 ≤ j < size_ v - 1 →
         slot (items_ v') j =
         if bool_decide (j < pos) then slot (items_ v) j else slot (items_ v) (j + 1).
Proof.
  intros Hp Hl Hs. unfold Erase_move, IsEmpty, begin, end_, std_move_within.
  rewrite bool_decide_eq_true_2 by lia. simpl.
  rewrite bool_decide_eq_false_2 by lia.
  destruct (shift_range_spec moved Moving (items_ v) (pos + 1) (0 + size_ v) pos)
    as (a' & -> & Hl' & Ha'); [lia..|].
  simpl. rewrite wrap_small by (sizes; lia).
  eexists. split; [done|]. simpl. repeat split; try done.
  intros j Hj. rewrite Ha'. slots.
Qed.


Lemma Insert_spec v pos x :
  valid v → 0 ≤ pos ≤ size_ v →
  ∃ v', Insert dflt moved v pos x = Ok (v', pos) ∧
    size_ v' = size_ v + 1 ∧
    capacity_ v' =
      (if bool_decide (size_ v < capacity_ v) then capacity_ v
       else Z.max (2 * capacity_ v) (size_ v + 1)) ∧
    capacity_ v' ≤ Z.of_nat (length (items_ v')) ∧
    inserted (items_ v) (items_ v') pos x (size_ v) ∧
    (size_ v < capacity_ v →
     length (items_ v') = length (items_ v) ∧
     ∀ j, size_ v < j → slot (items_ v') j = slot (items_ v) j).
Proof.
  intros Hv Hp. unfold Insert, begin, end_.
  rewrite bool_decide_eq_true_2 by lia. simpl.
  replace (0 + (pos - 0)) with pos by lia.
  replace (pos - 0) with pos by lia.
  destruct (decide (size_ v < capacity_ v)) as [Hlt|Hge].
  - rewrite (bool_decide_eq_false_2 (capacity_ v <= _)) by lia.
    unfold std_move_backward_within.
    destruct (shift_range_backward_spec moved Moving (items_ v) pos
                (0 + size_ v) (0 + size_ v + 1))
      as (a1 & -> & Hl1 & Ha1); [sizes; lia..|].
    simpl. rewrite set_in_range by (sizes; lia). simpl.
    rewrite wrap_small by (sizes; lia).
    eexists. split; [done|]. simpl.
    rewrite bool_decide_eq_true_2 by done. rewrite length_insert.
    split; [done|]. split; [done|]. split; [sizes; lia|].
    split; [|split; [lia|]].
    + intros j Hj. rewrite slot_insert, Ha1 by (sizes; lia). slots.
    + intros j Hj. rewrite slot_insert, Ha1 by (sizes; lia). slots.
  - rewrite (bool_decide_eq_true_2 (capacity_ v <= _)) by lia.
    rewrite (bool_decide_eq_false_2 (size_ v < _)) by done.
    destruct (decide (capacity_ v = 0)) as [Hc0|Hc0].
    + rewrite bool_decide_eq_true_2 by done.
      destruct (PushBack_spec v x Hv) as (v' & -> & Hs & Hc & Hl & Hs').
      simpl. assert (pos = 0) as -> by (sizes; lia).
      eexists. split; [done|].
      rewrite bool_decide_eq_false_2 in Hc by done.
      split; [done|]. split; [done|]. split; [done|].
      split; [|lia].
      intros j Hj. rewrite Hs' by done. sizes. slots.
    + rewrite bool_decide_eq_false_2 by done.
      assert (wrap (capacity_ v * 2) = 2 * capacity_ v) as ->.
      { rewrite wrap_small; sizes; lia. }
      unfold std_move, std_move_backward.
      destruct (transfer_range_spec moved Moving (items_ v) 0 pos
                  (ArrayPtr.create dflt (2 * capacity_ v)) 0)
        as (s1 & t1 & -> & Hls1 & Hlt1 & Ht1 & Hs1);
        [unfold ArrayPtr.create; rewrite ?length_replicate; sizes; lia..|].
      unfold ArrayPtr.create in Hlt1. rewrite length_replicate in Hlt1.
      simpl. rewrite set_in_range by (sizes; lia). simpl.
      destruct (transfer_range_backward_spec moved Moving s1 pos (0 + size_ v)
                  (<[Z.to_nat pos := x]> t1) (0 + size_ v + 1))
        as (s2 & t2 & -> & Hls2 & Hlt2 & Ht2 & Hs2);
        [rewrite ?length_insert; sizes; lia..|].
      rewrite length_insert in Hlt2.
      simpl. rewrite wrap_small by (sizes; lia).
      eexists. split; [done|]. simpl.
      split; [done|]. split; [sizes; lia|]. split; [sizes; lia|].
      split; [|lia].
      intros j Hj. rewrite Ht2, slot_insert, Hs1, Ht1 by (sizes; lia).
      slots.
Qed.

Lemma valid_in_storage v : valid v → in_storage v.
Proof. unfold in_storage. sizes. lia. Qed.

Lemma SimpleVector_copy_spec v :
  in_storage v →
  ∃ w, SimpleVector_copy dflt moved v = Ok w ∧
    size_ w = size_ v ∧ capacity_ w = capacity_ v ∧
    Z.of_nat (length (items_ w)) = size_ v ∧
    elements w = elements v.
Proof.
  intros [Hs Hb]. unfold SimpleVector_copy, GetSize, GetCapacity.
  destruct (SimpleVector_sized_spec (size_ v)) as (tmp & -> & Hts & Htc & Htl);
    [lia|].
  simpl. unfold std_copy.
  destruct (transfer_range_spec moved Copying (items_ v) (begin v) (end_ v)
              (items_ tmp) (begin tmp))
    as (s1 & t1 & -> & Hl1 & Hl2 & Ht1 & Hs1); [sizes; lia..|].
  simpl. eexists. split; [done|]. simpl.
  split; [done|]. split; [done|]. split; [lia|].
  apply elements_ext; [done|]. simpl.
  intros j Hj. rewrite Ht1. sizes. slots.
Qed.

Lemma SimpleVector_move_spec v :
  in_storage v →
  ∃ w v', SimpleVector_move dflt moved v = Ok (w, v') ∧
    size_ w = size_ v ∧ capacity_ w = capacity_ v ∧
    Z.of_nat (length (items_ w)) = size_ v ∧
    elements w = elements v ∧
    size_ v' = 0 ∧ capacity_ v' = 0.
Proof.
  intros [Hs Hb]. unfold SimpleVector_move, GetSize, GetCapacity, std_move.
  destruct (transfer_range_spec moved Moving (items_ v) (begin v) (end_ v)
              (ArrayPtr.create dflt (size_ v)) 0)
    as (s1 & t1 & -> & Hl1 & Hl2 & Ht1 & Hs1);
    [unfold ArrayPtr.create; rewrite ?length_replicate; sizes; lia..|].
  unfold ArrayPtr.create in Hl2. rewrite length_replicate in Hl2.
  simpl. eexists _, _. split; [done|]. simpl.
  split; [done|]. split; [done|]. split; [lia|]. split; [|done].
  apply elements_ext; [done|]. simpl.
  intros j Hj. rewrite Ht1. sizes. slots.
Qed.

Lemma move_assign_fst (this rhs : @SimpleVector T) :
  (move_assign this rhs).1 =
  {| items_ := items_ rhs; size_ := size_ rhs; capacity_ := capacity_ this |}.
Proof. done. Qed.

Lemma move_assign_snd (this rhs : @SimpleVector T) :
  (move_assign this rhs).2 = {| items_ := []; size_ := 0; capacity_ := 0 |}.
Proof. done. Qed.

Lemma operator_eq_total (st : gmap nat (@SimpleVector T)) a b va vb :
  st !! a = Some va → st !! b = Some vb →
  in_storage va → in_storage vb →
  ∃ r, operator_eq T_eqb st a b = Ok r.
Proof.
  intros Ha Hb [Hva ?] [Hvb ?]. unfold operator_eq, deref. rewrite Ha, Hb. simpl.
  case_bool_decide; [by eexists|].
  unfold std_equal. rewrite !distance_ok by (sizes; lia). simpl.
  case_bool_decide as Hn; [|by eexists].
  apply (equal_loop_total T_eqb); sizes; lia.
Qed.

Lemma operator_eq_same (st : gmap nat (@SimpleVector T)) a b va vb :
  (∀ x, T_eqb x x = true) →
  st !! a = Some va → st !! b = Some vb →
  in_storage va → size_ va = size_ vb →
  (∀ j, 0 ≤ j < size_ va → slot (items_ va) j = slot (items_ vb) j) →
  operator_eq T_eqb st a b = Ok true.
Proof.
  intros Hrefl Ha Hb [Hva ?] Hs Hsame. unfold operator_eq, deref.
  rewrite Ha, Hb. simpl.
  case_bool_decide; [done|].
  unfold std_equal. rewrite !distance_ok by (sizes; lia). simpl.
  rewrite bool_decide_eq_true_2 by (sizes; lia).
  apply (equal_loop_same T_eqb); try done; try (sizes; lia).
  intros k Hk. sizes. apply Hsame. lia.
Qed.

Lemma elements_slots v w :
  in_storage v → in_storage w → elements v = elements w →
  size_ v = size_ w ∧
  ∀ j, 0 ≤ j < size_ v → slot (items_ v) j = slot (items_ w) j.
Proof.
  intros [Hv ?] [Hw ?] He.
  assert (size_ v = size_ w) as Hs.
  { rewrite <- (elements_length v), <- (elements_length w) by done.
    by rewrite He. }
  split; [done|]. intros j Hj.
  pose proof (slot_elements v j) as H1. pose proof (slot_elements w j) as H2.
  rewrite bool_decide_eq_true_2 in H1, H2 by lia.
  by rewrite <- H1, <- H2, He.
Qed.

(** *** No operation but [At] throws *)

Lemma no_throw_Ok {A} (a : A) : no_throw (Ok a).
Proof. done. Qed.

Lemma no_throw_Undefined {A} : no_throw (@Undefined A).
Proof. done. Qed.

Lemma no_throw_bind {A B} (r : result A) (k : A → result B) :
  no_throw r → (∀ a, no_throw (k a)) → no_throw (r ≫= k).
Proof. intros Hr Hk. destruct r; simpl; [apply Hk|by destruct Hr|done]. Qed.

Lemma no_throw_get (a : list T) i : no_throw (ArrayPtr.get a i).
Proof. unfold ArrayPtr.get. case_bool_decide; [|done]. by case_match. Qed.

Lemma no_throw_set (a : list T) i x : no_throw (ArrayPtr.set a i x).
Proof. unfold ArrayPtr.set. by case_bool_decide. Qed.

Lemma no_throw_distance first last : no_throw (distance first last).
Proof. unfold distance. by case_bool_decide. Qed.

Lemma no_throw_release h (a : list T) i x : no_throw (release moved h a i x).
Proof. destruct h; [done|apply no_throw_set]. Qed.

Create HintDb no_throw.

#[local] Hint Resolve no_throw_Ok no_throw_Undefined no_throw_get no_throw_set
  no_throw_distance no_throw_release : no_throw.

Ltac no_throw_step :=
  first [ solve [eauto with no_throw]
        | apply no_throw_bind; [|intros ?]
        | case_bool_decide
        | case_match ].

Lemma no_throw_for_loop {S} n (body : Z → S → result S) :
  (∀ i s, no_throw (body i s)) → ∀ lo s, no_throw (for_loop n lo body s).
Proof.
  intros Hbody. induction n as [|n IH]; intros lo s; simpl; [done|].
  apply no_throw_bind; [apply Hbody|]. intros s'. apply IH.
Qed.

Lemma no_throw_transfer h n :
  ∀ (src : list T) first dst d, no_throw (transfer moved h n src first dst d).
Proof. induction n as [|n IH]; intros; simpl; repeat no_throw_step. Qed.

Lemma no_throw_transfer_backward h n :
  ∀ (src : list T) last dst d,
    no_throw (transfer_backward moved h n src last dst d).
Proof. induction n as [|n IH]; intros; simpl; repeat no_throw_step. Qed.

Lemma no_throw_shift h n :
  ∀ (a : list T) first d, no_throw (shift moved h n a first d).
Proof. induction n as [|n IH]; intros; simpl; repeat no_throw_step. Qed.

Lemma no_throw_shift_backward h n :
  ∀ (a : list T) last d, no_throw (shift_backward moved h n a last d).
Proof. induction n as [|n IH]; intros; simpl; repeat no_throw_step. Qed.

Lemma no_throw_equal_loop n :
  ∀ (a : list T) first1 b first2, no_throw (equal_loop T_eqb n a first1 b first2).
Proof. induction n as [|n IH]; intros; simpl; repeat no_throw_step. Qed.

#[local] Hint Resolve no_throw_transfer no_throw_transfer_backward no_throw_shift
  no_throw_shift_backward no_throw_equal_loop : no_throw.

Lemma no_throw_transfer_range h (src : list T) first last dst d :
  no_throw (transfer_range moved h src first last dst d).
Proof. unfold transfer_range. repeat no_throw_step. Qed.

Lemma no_throw_transfer_range_backward h (src : list T) first last dst d :
  no_throw (transfer_range_backward moved h src first last dst d).
Proof. unfold transfer_range_backward. repeat no_throw_step. Qed.

Lemma no_throw_shift_range h (a : list T) first last d :
  no_throw (shift_range moved h a first last d).
Proof. unfold shift_range. repeat no_throw_step. Qed.

Lemma no_throw_shift_range_backward h (a : list T) first last d :
  no_throw (shift_range_backward moved h a first last d).
Proof. unfold shift_range_backward. repeat no_throw_step. Qed.

#[local] Hint Resolve no_throw_transfer_range no_throw_transfer_range_backward
  no_throw_shift_range no_throw_shift_range_backward : no_throw.

Lemma no_throw_fill size x : no_throw (SimpleVector_fill dflt size x).
Proof.
  unfold SimpleVector_fill, std_fill. repeat no_throw_step.
  apply no_throw_for_loop. intros. apply no_throw_set.
Qed.

Lemma no_throw_fill_move size x :
  no_throw (SimpleVector_fill_move dflt moved size x).
Proof.
  unfold SimpleVector_fill_move, for_range. repeat no_throw_step.
  apply no_throw_for_loop. intros. repeat no_throw_step.
Qed.

Lemma no_throw_sized size : no_throw (SimpleVector_sized dflt moved size).
Proof. apply no_throw_fill_move. Qed.

Lemma no_throw_init (init : list T) : no_throw (SimpleVector_init dflt moved init).
Proof. unfold SimpleVector_init, std_copy. repeat no_throw_step. Qed.

#[local] Hint Resolve no_throw_fill no_throw_fill_move no_throw_sized no_throw_init
  : no_throw.

Lemma no_throw_copy v : no_throw (SimpleVector_copy dflt moved v).
Proof. unfold SimpleVector_copy, std_copy. repeat no_throw_step. Qed.

Lemma no_throw_move v : no_throw (SimpleVector_move dflt moved v).
Proof. unfold SimpleVector_move, std_move. repeat no_throw_step. Qed.

Lemma no_throw_subscript v i : no_throw (subscript v i).
Proof. unfold subscript. repeat no_throw_step. Qed.

Lemma no_throw_Resize v n : no_throw (Resize dflt moved v n).
Proof.
  unfold Resize, std_move, for_range. repeat no_throw_step;
    apply no_throw_for_loop; intros; apply no_throw_set.
Qed.

Lemma no_throw_Reserve v n : no_throw (Reserve dflt moved v n).
Proof. unfold Reserve, std_move. repeat no_throw_step. Qed.

#[local] Hint Resolve no_throw_copy no_throw_move no_throw_subscript no_throw_Resize
  no_throw_Reserve : no_throw.

Lemma no_throw_reserved n : no_throw (SimpleVector_reserved dflt moved n).
Proof. apply no_throw_Reserve. Qed.

Lemma no_throw_PushBack v x : no_throw (PushBack dflt moved v x).
Proof. unfold PushBack. repeat no_throw_step. Qed.

#[local] Hint Resolve no_throw_PushBack : no_throw.

Lemma no_throw_Insert_by h v pos x : no_throw (Insert_by dflt moved h v pos x).
Proof.
  destruct h; simpl.
  - unfold Insert_copy, std_copy, std_copy_backward.
    destruct (bool_decide _); simpl; [|done]. repeat no_throw_step.
  - unfold Insert, std_move, std_move_backward, std_move_backward_within.
    destruct (bool_decide _); simpl; [|done]. repeat no_throw_step.
Qed.

Lemma no_throw_PopBack v : no_throw (PopBack v).
Proof. unfold PopBack. by destruct (IsEmpty v). Qed.

Lemma no_throw_Erase_by h v pos : no_throw (Erase_by moved h v pos).
Proof.
  destruct h; simpl.
  - unfold Erase, std_copy_within.
    destruct (bool_decide _); simpl; [|done].
    destruct (IsEmpty v); [done|]. repeat no_throw_step.
  - unfold Erase_move, std_move_within.
    destruct (bool_decide _); simpl; [|done].
    destruct (IsEmpty v); [done|]. repeat no_throw_step.
Qed.

Lemma no_throw_deref (st : gmap nat (@SimpleVector T)) p : no_throw (deref st p).
Proof. unfold deref. by case_match. Qed.

#[local] Hint Resolve no_throw_deref : no_throw.

Lemma no_throw_operator_eq (st : gmap nat (@SimpleVector T)) lhs rhs :
  no_throw (operator_eq T_eqb st lhs rhs).
Proof. unfold operator_eq, std_equal. repeat no_throw_step. Qed.

#[local] Hint Resolve no_throw_operator_eq : no_throw.

Lemma no_throw_assign (st : gmap nat (@SimpleVector T)) this rhs :
  no_throw (operator_assign dflt moved T_eqb st this rhs).
Proof.
  unfold operator_assign. apply no_throw_bind; [eauto with no_throw|].
  intros []; repeat no_throw_step.
Qed.

Lemma no_throw_assign_move (st : gmap nat (@SimpleVector T)) this rhs :
  no_throw (operator_assign_move st this rhs).
Proof. unfold operator_assign_move. repeat no_throw_step. Qed.

Lemma no_throw_swap_ref (st : gmap nat (@SimpleVector T)) this other :
  no_throw (swap_ref st this other).
Proof. unfold swap_ref. repeat no_throw_step. Qed.

Lemma Erase_by_spec h v pos :
  0 ≤ pos < size_ v → size_ v ≤ Z.of_nat (length (items_ v)) →
  size_ v < 2 ^ size_t_bits →
  ∃ v', Erase_by moved h v pos = Ok (v', pos) ∧
    size_ v' = size_ v - 1 ∧ capacity_ v' = capacity_ v ∧
    length (items_ v') = length (items_ v) ∧
    ∀ j, 0 ≤ j < size_ v - 1 →
         slot (items_ v') j =
         if bool_decide (j < pos) then slot (items_ v) j else slot (items_ v) (j + 1).
Proof. destruct h; [apply Erase_spec|apply Erase_move_spec]. Qed.

(** *** The operations that keep the size within the capacity *)

Lemma Reserve_spec v n :
  valid v → capacity_ v < n →
  ∃ v', Reserve dflt moved v n = Ok v' ∧
    size_ v' = size_ v ∧ capacity_ v' = n ∧
    Z.of_nat (length (items_ v')) = n ∧
    elements v' = elements v.
Proof.
  intros Hv Hn. unfold Reserve, std_move.
  rewrite bool_decide_eq_true_2 by lia.
  destruct (transfer_range_spec moved Moving (items_ v) 0 (0 + size_ v)
              (ArrayPtr.create dflt n) 0)
    as (s1 & t1 & -> & Hl1 & Hl2 & Ht1 & Hs1);
    [unfold ArrayPtr.create; rewrite ?length_replicate; sizes; lia..|].
  unfold ArrayPtr.create in Hl2. rewrite length_replicate in Hl2.
  simpl. eexists. split; [done|]. simpl.
  split; [done|]. split; [done|]. split; [sizes; lia|].
  apply elements_ext; [done|]. simpl.
  intros j Hj. rewrite Ht1. slots.
Qed.

Lemma Reserve_enough v n : n ≤ capacity_ v → Reserve dflt moved v n = Ok v.
Proof. intros Hn. unfold Reserve. by rewrite bool_decide_eq_false_2 by lia. Qed.

Lemma size_within_capacity_kept v :
  valid v →
  (∀ n, 0 ≤ n < 2 ^ size_t_bits →
        ∃ v', Resize dflt moved v n = Ok v' ∧ 0 ≤ size_ v' ≤ capacity_ v') ∧
  (∀ n, ∃ v', Reserve dflt moved v n = Ok v' ∧ 0 ≤ size_ v' ≤ capacity_ v') ∧
  0 ≤ size_ (Clear v) ≤ capacity_ (Clear v) ∧
  (∀ x, ∃ v', PushBack dflt moved v x = Ok v' ∧ 0 ≤ size_ v' ≤ capacity_ v') ∧
  (0 < size_ v → ∃ v', PopBack v = Ok v' ∧ 0 ≤ size_ v' ≤ capacity_ v') ∧
  (∀ pos x, 0 ≤ pos ≤ size_ v →
        ∃ v', Insert dflt moved v pos x = Ok (v', pos) ∧
              0 ≤ size_ v' ≤ capacity_ v') ∧
  (∀ h pos, 0 ≤ pos < size_ v →
        ∃ v', Erase_by moved h v pos = Ok (v', pos) ∧
              0 ≤ size_ v' ≤ capacity_ v') ∧
  (∃ w, SimpleVector_copy dflt moved v = Ok w ∧ 0 ≤ size_ w ≤ capacity_ w) ∧
  (∃ w v', SimpleVector_move dflt moved v = Ok (w, v') ∧
           0 ≤ size_ w ≤ capacity_ w ∧ 0 ≤ size_ v' ≤ capacity_ v') ∧
  (∀ w, valid w →
        0 ≤ size_ (swap v w).1 ≤ capacity_ (swap v w).1 ∧
        0 ≤ size_ (swap v w).2 ≤ capacity_ (swap v w).2).
Proof.
  intros Hv. pose proof (valid_in_storage v Hv) as Hst.
  split.
  { intros n Hn.
    destruct (Z.lt_ge_cases n (size_ v)) as [Hlt|Hge].
    - exists (set_size v n). split; [apply Resize_shrink; lia|]. sizes. lia.
    - destruct (Z.le_gt_cases n (capacity_ v)) as [Hle|Hgt].
      + destruct (Resize_within v n Hv) as (v' & Hr & Hs & Hc & _); [lia|].
        exists v'. split; [done|]. sizes. lia.
      + destruct (Resize_grow v n Hv) as (v' & Hr & Hs & Hc & _); [lia|].
        exists v'. split; [done|]. sizes. lia. }
  split.
  { intros n. destruct (Z.le_gt_cases n (capacity_ v)) as [Hle|Hgt].
    - exists v. split; [by apply Reserve_enough|]. sizes. lia.
    - destruct (Reserve_spec v n Hv Hgt) as (v' & Hr & Hs & Hc & _).
      exists v'. split; [done|]. sizes. lia. }
  split; [sizes; lia|].
  split.
  { intros x. destruct (PushBack_spec v x Hv) as (v' & Hp & Hs & Hc & _).
    exists v'. split; [done|]. rewrite Hc, Hs. sizes. case_bool_decide; lia. }
  split.
  { intros Hpos. eexists. split; [apply PopBack_spec; sizes; lia|].
    sizes. lia. }
  split.
  { intros pos x Hp.
    destruct (Insert_spec v pos x Hv Hp) as (v' & Hi & Hs & Hc & _).
    exists v'. split; [done|]. rewrite Hc, Hs. sizes. case_bool_decide; lia. }
  split.
  { intros h pos Hp.
    destruct (Erase_by_spec h v pos Hp) as (v' & He & Hs & Hc & _);
      [sizes; lia..|].
    exists v'. split; [done|]. sizes. lia. }
  split.
  { destruct (SimpleVector_copy_spec v Hst) as (w & Hcp & Hs & Hc & _).
    exists w. split; [done|]. sizes. lia. }
  split.
  { destruct (SimpleVector_move_spec v Hst)
      as (w & v' & Hm & Hs & Hc & _ & _ & Hs' & Hc').
    exists w, v'. split; [done|]. sizes. lia. }
  intros w Hw. sizes. lia.
Qed.

(** *** The operations on valid containers *)

(** X24.  On a valid container of size [s] and capacity [c], [Resize(n)]
    sets the size to [n].  With [n < s] the capacity and the elements
    below [n] are unchanged.  With [s <= n <= c] the capacity and the
    elements below [s] are unchanged and the positions of [s, n) hold
    default-constructed values.  With [n > c] the capacity becomes
    [max(2*c, n)], the first [s] elements are preserved and the positions
    of [s, n) hold default-constructed values. *)
Theorem Resize_three_cases v n :
  valid v → 0 ≤ n < 2 ^ size_t_bits →
  ∃ v', Resize dflt moved v n = Ok v' ∧
    size_ v' = n ∧
    (n < size_ v →
       capacity_ v' = capacity_ v ∧
       ∀ j, 0 ≤ j < n → slot (items_ v') j = slot (items_ v) j) ∧
    (size_ v ≤ n ≤ capacity_ v →
       capacity_ v' = capacity_ v ∧
       (∀ j, 0 ≤ j < size_ v → slot (items_ v') j = slot (items_ v) j) ∧
       (∀ j, size_ v ≤ j < n → slot (items_ v') j = Some dflt)) ∧
    (capacity_ v < n →
       capacity_ v' = Z.max (2 * capacity_ v) n ∧
       (∀ j, 0 ≤ j < size_ v → slot (items_ v') j = slot (items_ v) j) ∧
       (∀ j, size_ v ≤ j < n → slot (items_ v') j = Some dflt)).
Proof.
  intros Hv Hn.
  destruct (Z.lt_ge_cases n (size_ v)) as [Hlt|Hge].
  - exists (set_size v n). rewrite Resize_shrink by lia.
    split; [done|]. split; [done|]. split; [done|].
    sizes. split; intros; lia.
  - destruct (Z.le_gt_cases n (capacity_ v)) as [Hle|Hgt].
    + destruct (Resize_within v n Hv) as (v' & Hr & Hs & Hc & Hl & Hslots); [lia|].
      exists v'. split; [done|]. split; [done|].
      split; [lia|]. split; [|lia].
      intros _. split; [done|].
      split; intros j Hj; rewrite Hslots; slots.
    + destruct (Resize_grow v n Hv) as (v' & Hr & Hs & Hc & Hl & Hslots); [lia|].
      exists v'. split; [done|]. split; [done|].
      split; [lia|]. split; [lia|].
      intros _. split; [done|].
      split; intros j Hj; rewrite Hslots by (sizes; lia); slots.
Qed.





(** C5.  [At(i)] ends in [std::out_of_range] exactly when [i >= size], and
    returns the element at position [i] when [i < size].  ([At] assigns to
    no member: the container after the call is the container before it.)
    No other operation ends in an exception; the accessors, [Clear] and
    [swap] have no outcome but their result. *)
Theorem At_is_the_checked_access v i :
  in_storage v → 0 ≤ i →
  (At v i = Throw_out_of_range ↔ size_ v ≤ i) ∧
  (i < size_ v → ∃ x, At v i = Ok x ∧ slot (items_ v) i = Some x) ∧
  (∀ n x, no_throw (SimpleVector_fill dflt n x)) ∧
  (∀ n x, no_throw (SimpleVector_fill_move dflt moved n x)) ∧
  (∀ n, no_throw (SimpleVector_sized dflt moved n)) ∧
  (∀ init, no_throw (SimpleVector_init dflt moved init)) ∧
  (∀ w, no_throw (SimpleVector_copy dflt moved w)) ∧
  (∀ w, no_throw (SimpleVector_move dflt moved w)) ∧
  (∀ n, no_throw (SimpleVector_reserved dflt moved n)) ∧
  (∀ w k, no_throw (subscript w k)) ∧
  (∀ w n, no_throw (Resize dflt moved w n)) ∧
  (∀ w n, no_throw (Reserve dflt moved w n)) ∧
  (∀ w x, no_throw (PushBack dflt moved w x)) ∧
  (∀ w, no_throw (PopBack w)) ∧
  (∀ h w pos x, no_throw (Insert_by dflt moved h w pos x)) ∧
  (∀ h w pos, no_throw (Erase_by moved h w pos)) ∧
  (∀ st a b, no_throw (operator_assign dflt moved T_eqb st a b)) ∧
  (∀ st a b, no_throw (@operator_assign_move T st a b)) ∧
  (∀ st a b, no_throw (@swap_ref T st a b)) ∧
  (∀ st a b, no_throw (operator_eq T_eqb st a b)).
Proof.
  intros [Hs Hb] Hi. split.
  { unfold At. case_bool_decide.
    - split; [lia|done].
    - split; [|lia]. intros Ht. by destruct (no_throw_get (items_ v) i). }
  split.
  { intros Hlt. destruct (slot_is_Some (items_ v) i) as [x Hx]; [lia|].
    exists x. split; [|done]. unfold At.
    rewrite bool_decide_eq_false_2 by lia. by apply get_slot. }
  repeat split; intros.
  - apply no_throw_fill.
  - apply no_throw_fill_move.
  - apply no_throw_sized.
  - apply no_throw_init.
  - apply no_throw_copy.
  - apply no_throw_move.
  - apply no_throw_reserved.
  - apply no_throw_subscript.
  - apply no_throw_Resize.
  - apply no_throw_Reserve.
  - apply no_throw_PushBack.
  - apply no_throw_PopBack.
  - apply no_throw_Insert_by.
  - apply no_throw_Erase_by.
  - apply no_throw_assign.
  - apply no_throw_assign_move.
  - apply no_throw_swap_ref.
  - apply no_throw_operator_eq.
Qed.

(** C6.  Copy assignment [a = b] makes [a] compare equal to [b] and leaves
    [b] as it was.  When [a == b] held before the call, for one object or
    for two, nothing is assigned: every object, [a] with its array, size
    and capacity among them, is as it was. *)
Theorem assign_copies_unless_equal (st : gmap nat (@SimpleVector T)) a b va vb :
  (∀ x, T_eqb x x = true) →
  st !! a = Some va → st !! b = Some vb →
  in_storage va → in_storage vb →
  ∃ st',
    operator_assign dflt moved T_eqb st a b = Ok st' ∧
    st' !! b = Some vb ∧
    operator_eq T_eqb st' a b = Ok true ∧
    (operator_eq T_eqb st a b = Ok true → st' = st) ∧
    (elements va = elements vb → st' = st).
Proof.
  intros Hrefl Ha Hb Hva Hvb.
  destruct (operator_eq_total st a b va vb Ha Hb Hva Hvb) as [r Hr].
  assert (elements va = elements vb → r = true) as Hel.
  { intros He. destruct (elements_slots va vb Hva Hvb He) as [Hs Hsl].
    rewrite (operator_eq_same st a b va vb) in Hr by done. by injection Hr. }
  unfold operator_assign. rewrite Hr. simpl. destruct r.
  - exists st. by repeat split.
  - assert (a ≠ b) as Hne.
    { intros ->. unfold operator_eq, deref in Hr. rewrite Hb in Hr. simpl in Hr.
      by rewrite bool_decide_eq_true_2 in Hr by done. }
    destruct (SimpleVector_copy_spec vb Hvb) as (tmp & Hcp & Hts & Htc & Htl & Hte).
    exists (<[a := (swap va tmp).1]> st).
    split.
    { unfold deref. rewrite Ha, Hb. simpl. by rewrite Hcp. }
    split; [by rewrite lookup_insert_ne|].
    split; [|split; [done|intros He; by specialize (Hel He)]].
    assert (in_storage tmp) as Htmp.
    { destruct Hvb. unfold in_storage. lia. }
    destruct (elements_slots tmp vb Htmp Hvb Hte) as [Hs Hsl].
    apply (operator_eq_same _ a b (swap va tmp).1 vb); try done.
    + apply lookup_insert_eq.
    + by rewrite lookup_insert_ne.
Qed.

(** C9.  Move construction and move assignment empty the source: after
    [SimpleVector(std::move(b))] and after [a = std::move(b)], [b] has size
    0 and capacity 0, and the destination has the size and the elements
    [b] had. *)
Theorem moving_empties_the_source (st : gmap nat (@SimpleVector T)) a b va vb :
  a ≠ b → st !! a = Some va → st !! b = Some vb → in_storage vb →
  (∃ w vb',
     SimpleVector_move dflt moved vb = Ok (w, vb') ∧
     size_ vb' = 0 ∧ capacity_ vb' = 0 ∧
     size_ w = size_ vb ∧ elements w = elements vb) ∧
  (∃ st' va' vb',
     operator_assign_move st a b = Ok st' ∧
     st' !! a = Some va' ∧ st' !! b = Some vb' ∧
     size_ vb' = 0 ∧ capacity_ vb' = 0 ∧
     size_ va' = size_ vb ∧ elements va' = elements vb).
Proof.
  intros Hne Ha Hb Hvb. split.
  - destruct (SimpleVector_move_spec vb Hvb)
      as (w & vb' & Hm & Hs & Hc & Hl & He & Hs' & Hc').
    by exists w, vb'.
  - unfold operator_assign_move, deref. rewrite Ha, Hb. simpl.
    eexists _, _, _. split; [done|].
    split; [by rewrite lookup_insert_ne, lookup_insert_eq|].
    split; [by rewrite lookup_insert_eq|].
    done.
Qed.

End VectorFacts.

(** ** The claims on containers of [int] *)

(** C1.  After [a = std::move(b)] with [a] default-constructed and [b]
    holding [{1, 2, 3}], [a] has size 3 and capacity 0: move assignment
    takes the array and the size of [b] and leaves [capacity_] of [a] as
    it was. *)
Theorem move_assignment_keeps_the_old_capacity :
  SimpleVector_init 0 id [1; 2; 3] = Ok v_123 ∧
  valid (@SimpleVector_default Z) ∧ valid v_123 ∧
  ∃ st' a',
    operator_assign_move two_objects 0%nat 1%nat = Ok st' ∧
    st' !! 0%nat = Some a' ∧
    a' = {| items_ := [1; 2; 3]; size_ := 3; capacity_ := 0 |} ∧
    ¬ size_ a' ≤ capacity_ a'.
Proof.
  split; [done|]. split; [sizes; lia|]. split; [sizes; lia|].
  eexists _, _. split.
  { unfold operator_assign_move, deref, two_objects.
    rewrite lookup_insert_eq, lookup_insert_ne, lookup_insert_eq by done.
    done. }
  split.
  { rewrite lookup_insert_ne, lookup_insert_eq by done. done. }
  split; [done|]. simpl. lia.
Qed.

(** C2.  The copy of [{1, 2, 3}] after [PopBack()] has the two elements
    of its source in an array of two slots, and capacity 3, the capacity
    of its source; the next [PushBack] on the copy assigns outside the
    array. *)
Theorem copy_constructor_keeps_the_source_capacity :
  (v ← SimpleVector_init 0 id [1; 2; 3]; PopBack v) = Ok v_12 ∧
  valid v_12 ∧
  SimpleVector_copy 0 id v_12 =
    Ok {| items_ := [1; 2]; size_ := 2; capacity_ := 3 |} ∧
  (w ← SimpleVector_copy 0 id v_12; PushBack 0 id w 4) = Undefined.
Proof.
  split; [done|]. split; [sizes; lia|]. split; done.
Qed.

(** C3.  The copy of [{1, 2, 3}] after [PopBack()] has size 2 and
    capacity 3, so [Resize(3)] on it is the case [s <= n <= c] of the
    claim; the loop at line 306 assigns [Type()] to [items_[2]], and the
    array the copy constructor has allocated has two slots: the call has
    no defined outcome, where the claim has size 3 and a default value at
    position 2. *)
Theorem Resize_within_the_capacity_of_a_copy :
  (v ← SimpleVector_init 0 id [1; 2; 3]; v ← PopBack v; SimpleVector_copy 0 id v)
    = Ok copy_of_v_12 ∧
  size_ copy_of_v_12 ≤ 3 ≤ capacity_ copy_of_v_12 ∧
  length (items_ copy_of_v_12) = 2%nat ∧
  Resize 0 id copy_of_v_12 3 = Undefined.
Proof. split; [done|]. split; [simpl; lia|]. split; done. Qed.

(** C4.  On the same copy the size (2) is below the capacity (3), the
    case in which the claim has [PushBack(4)] put 4 at position 2 and keep
    the capacity; the [Resize(3)] inside it assigns outside the array of
    two slots, and the call has no defined outcome. *)
Theorem PushBack_onto_a_copy :
  SimpleVector_copy 0 id v_12 = Ok copy_of_v_12 ∧
  size_ copy_of_v_12 < capacity_ copy_of_v_12 ∧
  Resize 0 id copy_of_v_12 (size_ copy_of_v_12 + 1) = Undefined ∧
  PushBack 0 id copy_of_v_12 4 = Undefined.
Proof. split; [done|]. split; [simpl; lia|]. split; done. Qed.

(** C8.  On the same copy [PushBack(4)] and then [PopBack()] do not give
    back the container: the [PushBack] has no defined outcome, and there
    is nothing for [PopBack()] to be called on. *)
Theorem PushBack_then_PopBack_on_a_copy :
  SimpleVector_copy 0 id v_12 = Ok copy_of_v_12 ∧
  elements copy_of_v_12 = [1; 2] ∧
  (v1 ← PushBack 0 id copy_of_v_12 4; PopBack v1) = Undefined.
Proof. split; [done|]. split; done. Qed.

(** C7.  After [a = std::move(b)] with [a] default-constructed and [b]
    holding [{1, 2, 3}], [a] has size 3 and capacity 0.  [Insert] of 9 at
    [begin() + 1] finds [capacity_ == 0], calls [PushBack] and returns
    [begin()]: 9 is at the end.  [Erase] at [begin() + 1] then leaves
    [1, 3, 9], and [Erase] at the returned iterator leaves [2, 3, 9]; the
    elements before the [Insert] were [1, 2, 3]. *)
Theorem Insert_then_Erase_after_move_assignment :
  (∃ st', operator_assign_move two_objects 0%nat 1%nat = Ok st' ∧
          st' !! 0%nat = Some default_assigned_123) ∧
  elements default_assigned_123 = [1; 2; 3] ∧
  0 ≤ 1 ≤ size_ default_assigned_123 ∧
  Insert 0 id default_assigned_123 1 9 =
    Ok ({| items_ := [1; 2; 3; 9]; size_ := 4; capacity_ := 4 |}, 0) ∧
  (r ← Insert 0 id default_assigned_123 1 9; r' ← Erase id r.1 1;
   Ok (size_ r'.1, elements r'.1)) = Ok (3, [1; 3; 9]) ∧
  (r ← Insert 0 id default_assigned_123 1 9; r' ← Erase_move id r.1 1;
   Ok (size_ r'.1, elements r'.1)) = Ok (3, [1; 3; 9]) ∧
  (r ← Insert 0 id default_assigned_123 1 9; r' ← Erase id r.1 r.2;
   Ok (size_ r'.1, elements r'.1)) = Ok (3, [2; 3; 9]).
Proof.
  split.
  { eexists. split.
    - unfold operator_assign_move, deref, two_objects.
      rewrite lookup_insert_eq, lookup_insert_ne, lookup_insert_eq by done.
      done.
    - rewrite lookup_insert_ne, lookup_insert_eq by done. done. }
  split; [done|]. split; [simpl; lia|]. repeat split; done.
Qed.

(** C10.  After [a = std::move(b)] with [a] holding [{7}] and [b] holding
    [{1, 2, 3}], [a] has size 3 and capacity 1.  [Insert(end(), 9)] takes
    the growth path, allocates [capacity_ * 2 = 2] slots and moves three
    elements into them: no defined outcome.  [PushBack(9)] on the same
    container gives [1, 2, 3, 9] with capacity 4. *)
Theorem Insert_at_end_after_move_assignment :
  (∃ st', operator_assign_move seven_and_123 0%nat 1%nat = Ok st' ∧
          st' !! 0%nat = Some v_7_assigned_123) ∧
  Insert 0 id v_7_assigned_123 (end_ v_7_assigned_123) 9 = Undefined ∧
  PushBack 0 id v_7_assigned_123 9 =
    Ok {| items_ := [1; 2; 3; 9]; size_ := 4; capacity_ := 4 |}.
Proof.
  split.
  { eexists. split.
    - unfold operator_assign_move, deref, seven_and_123.
      rewrite lookup_insert_eq, lookup_insert_ne, lookup_insert_eq by done.
      done.
    - rewrite lookup_insert_ne, lookup_insert_eq by done. done. }
  split; done.
Qed.

(** The scenario of the specification: [{1, 2, 3}] has size 3 and
    capacity 3; [PushBack(4)] gives size 4 and capacity 6; [Insert] of 9
    at [begin() + 1] puts it at index 1 and shifts the rest. *)
Example literal_list_then_PushBack_then_Insert :
  SimpleVector_init 0 id [1; 2; 3] =
    Ok {| items_ := [1; 2; 3]; size_ := 3; capacity_ := 3 |} ∧
  (v ← PushBack 0 id v_123 4; Ok (size_ v, capacity_ v, elements v)) =
    Ok (4, 6, [1; 2; 3; 4]) ∧
  (v ← PushBack 0 id v_123 4; r ← Insert 0 id v 1 9;
   Ok (size_ r.1, capacity_ r.1, elements r.1, r.2)) =
    Ok (5, 6, [1; 9; 2; 3; 4], 1).
Proof. done. Qed.

(** ** The theorems at work *)

Lemma valid_v_123 : valid v_123.
Proof. sizes. lia. Defined.

Lemma valid_v_12 : valid v_12.
Proof. sizes. lia. Defined.

Lemma Resize_three_cases_witness :
  valid v_12 ∧ 0 ≤ 5 < 2 ^ size_t_bits ∧
  ∃ v', Resize 0 id v_12 5 = Ok v' ∧ size_ v' = 5 ∧ capacity_ v' = 6.
Proof.
  assert (0 ≤ 5 < 2 ^ size_t_bits) as Hn by (sizes; lia).
  split; [apply valid_v_12|]. split; [done|].
  destruct (Resize_three_cases 0 id v_12 5 valid_v_12 Hn)
    as (v' & Hr & Hs & _ & _ & Hgrow).
  exists v'. split; [done|]. split; [done|].
  apply Hgrow. simpl. lia.
Defined.


Lemma At_is_the_checked_access_witness :
  in_storage v_123 ∧ 0 ≤ 5 ∧ At v_123 5 = Throw_out_of_range.
Proof.
  assert (in_storage v_123) as Hv by (unfold in_storage; sizes; lia).
  assert (0 ≤ 5) as Hi by lia.
  split; [done|]. split; [done|].
  destruct (At_is_the_checked_access 0 id Z.eqb v_123 5 Hv Hi) as [Hthrow _].
  apply Hthrow. simpl. lia.
Defined.

Lemma assign_copies_unless_equal_witness :
  (∀ x, Z.eqb x x = true) ∧
  two_objects !! 0%nat = Some SimpleVector_default ∧
  two_objects !! 1%nat = Some v_123 ∧
  in_storage (@SimpleVector_default Z) ∧ in_storage v_123 ∧
  ∃ st', operator_assign 0 id Z.eqb two_objects 0%nat 1%nat = Ok st' ∧
    operator_eq Z.eqb st' 0%nat 1%nat = Ok true.
Proof.
  assert (two_objects !! 0%nat = Some SimpleVector_default) as Ha.
  { apply lookup_insert_eq. }
  assert (two_objects !! 1%nat = Some v_123) as Hb.
  { unfold two_objects. rewrite lookup_insert_ne by done. apply lookup_insert_eq. }
  assert (in_storage (@SimpleVector_default Z)) as Hva
    by (unfold in_storage; sizes; lia).
  assert (in_storage v_123) as Hvb by (unfold in_storage; sizes; lia).
  split; [apply Z.eqb_refl|]. repeat (split; [done|]).
  destruct (assign_copies_unless_equal 0 id Z.eqb two_objects 0%nat 1%nat
              SimpleVector_default v_123 Z.eqb_refl Ha Hb Hva Hvb)
    as (st' & Hassign & _ & Heq & _).
  by exists st'.
Defined.



Lemma moving_empties_the_source_witness :
  (0 ≠ 1)%nat ∧
  two_objects !! 0%nat = Some SimpleVector_default ∧
  two_objects !! 1%nat = Some v_123 ∧
  in_storage v_123 ∧
  ∃ st' a' b', operator_assign_move two_objects 0%nat 1%nat = Ok st' ∧
    st' !! 0%nat = Some a' ∧ st' !! 1%nat = Some b' ∧
    size_ b' = 0 ∧ capacity_ b' = 0 ∧ size_ a' = 3 ∧ elements a' = [1; 2; 3].
Proof.
  assert ((0 ≠ 1)%nat) as Hne by done.
  assert (two_objects !! 0%nat = Some SimpleVector_default) as Ha.
  { apply lookup_insert_eq. }
  assert (two_objects !! 1%nat = Some v_123) as Hb.
  { unfold two_objects. rewrite lookup_insert_ne by done. apply lookup_insert_eq. }
  assert (in_storage v_123) as Hvb by (unfold in_storage; sizes; lia).
  repeat (split; [done|]).
  destruct (moving_empties_the_source 0 id two_objects 0%nat 1%nat
              SimpleVector_default v_123 Hne Ha Hb Hvb)
    as [_ (st' & a' & b' & Hm & Ha' & Hb' & Hs & Hc & Hs' & He)].
  by exists st', a', b'.
Defined.


(** * More of the container *)

Section MoreFacts.
Context {T : Type} (dflt : T) (moved : T → T).
Implicit Types (v w : @SimpleVector T) (x : T) (l : list T).

(** ** Sequences, slot by slot *)

Lemma slot_app l1 l2 j :
  slot (l1 ++ l2) j =
  if bool_decide (j < Z.of_nat (length l1)) then slot l1 j
  else slot l2 (j - Z.of_nat (length l1)).
Proof.
  unfold slot. destruct (decide (0 ≤ j)) as [Hj|Hj].
  - rewrite (bool_decide_eq_true_2 (0 ≤ j)) by done.
    case_bool_decide.
    + apply lookup_app_l. lia.
    + rewrite bool_decide_eq_true_2 by lia.
      rewrite lookup_app_r by lia. f_equal. lia.
  - rewrite (bool_decide_eq_false_2 (0 ≤ j)) by done.
    case_bool_decide; [done|]. by rewrite bool_decide_eq_false_2 by lia.
Qed.

Lemma slot_cons x l j :
  slot (x :: l) j = if bool_decide (j = 0) then Some x else slot l (j - 1).
Proof.
  unfold slot. destruct (decide (j = 0)) as [->|Hj].
  - done.
  - rewrite (bool_decide_eq_false_2 (j = 0)) by done.
    destruct (decide (0 ≤ j)).
    + rewrite !bool_decide_eq_true_2 by lia.
      replace (Z.to_nat j) with (S (Z.to_nat (j - 1))) by lia. done.
    + by rewrite !bool_decide_eq_false_2 by lia.
Qed.

Lemma slot_drop (n : nat) l j :
  slot (drop n l) j = if bool_decide (0 ≤ j) then slot l (j + Z.of_nat n) else None.
Proof.
  unfold slot. case_bool_decide; [|done].
  rewrite bool_decide_eq_true_2 by lia.
  rewrite lookup_drop. f_equal. lia.
Qed.

Lemma slot_nil j : slot (@nil T) j = None.
Proof. unfold slot. by case_bool_decide. Qed.

Lemma fits_elements_length v :
  fits v → Z.of_nat (length (elements v)) = size_ v.
Proof. intros [? ?]. apply elements_length. lia. Qed.

Lemma valid_fits v : valid v → fits v.
Proof. unfold fits. sizes. lia. Qed.

(** ** [Resize] *)

(** X1.  The elements after [Resize(n)] are the first [n] of before, then
    default values up to [n]; the capacity does not decrease and the
    array still holds it. *)
Theorem Resize_elements v n :
  valid v → 0 ≤ n < 2 ^ size_t_bits →
  ∃ v', Resize dflt moved v n = Ok v' ∧
    elements v' =
      take (Z.to_nat n) (elements v) ++ replicate (Z.to_nat (n - size_ v)) dflt ∧
    fits v' ∧ capacity_ v ≤ capacity_ v'.
Proof.
  intros Hv Hn.
  pose proof (fits_elements_length v (valid_fits v Hv)) as Hlen.
  assert (∀ v', size_ v' = n →
            (∀ j, 0 ≤ j < n →
                  slot (items_ v') j =
                  if bool_decide (j < size_ v) then slot (items_ v) j
                  else Some dflt) →
            elements v' =
              take (Z.to_nat n) (elements v) ++
              replicate (Z.to_nat (n - size_ v)) dflt) as Hel.
  { intros v' Hs Hsl. apply slot_ext. intros j.
    rewrite slot_app, slot_take, slot_replicate, !slot_elements, Hs.
    rewrite length_take, Nat2Z.inj_min, Hlen.
    destruct (decide (0 ≤ j < n)) as [Hj|Hj].
    - rewrite Hsl by done. sizes. slots.
    - destruct (decide (j < 0)).
      + rewrite !slot_None by lia. sizes. slots.
      + sizes. slots. }
  destruct (Z.lt_ge_cases n (size_ v)) as [Hlt|Hge].
  - exists (set_size v n). split; [apply Resize_shrink; lia|].
    split; [|unfold fits; sizes; lia].
    apply Hel; [done|]. intros j Hj. simpl. slots.
  - destruct (Z.le_gt_cases n (capacity_ v)) as [Hle|Hgt].
    + destruct (Resize_within dflt moved v n Hv) as (v' & Hr & Hs & Hc & Hl & Hsl);
        [lia|].
      exists v'. split; [done|]. split; [|unfold fits; sizes; lia].
      apply Hel; [done|]. intros j Hj. rewrite Hsl. sizes. slots.
    + destruct (Resize_grow dflt moved v n Hv) as (v' & Hr & Hs & Hc & Hl & Hsl);
        [lia|].
      exists v'. split; [done|]. split; [|unfold fits; sizes; lia].
      apply Hel; [done|]. intros j Hj. by apply Hsl.
Qed.

(** X2.  [Clear()] does what [Resize(0)] does. *)
Theorem Clear_is_Resize_0 v :
  0 ≤ size_ v ≤ capacity_ v → Resize dflt moved v 0 = Ok (Clear v).
Proof.
  intros Hs. unfold Resize, Clear.
  destruct (decide (size_ v = 0)) as [H0|H0].
  - rewrite !bool_decide_eq_true_2 by lia. unfold for_range.
    rewrite H0. simpl. by destruct v.
  - by rewrite bool_decide_eq_false_2 by lia.
Qed.

(** ** Constructors *)

(** X3.  [SimpleVector(n, value)] with a [const Type&] has size and
    capacity [n] and [n] copies of [value] in an array of [n] slots. *)
Theorem fill_constructor n x :
  0 ≤ n →
  SimpleVector_fill dflt n x =
    Ok {| items_ := replicate (Z.to_nat n) x; size_ := n; capacity_ := n |}.
Proof.
  intros Hn. unfold SimpleVector_fill, std_fill.
  rewrite distance_ok by lia. simpl.
  destruct (fill_loop_spec x (Z.to_nat (0 + n - 0)) (ArrayPtr.create dflt n) 0)
    as (a' & -> & Hl & Ha');
    [unfold ArrayPtr.create; rewrite ?length_replicate; lia..|].
  simpl. do 2 f_equal. apply slot_ext. intros j.
  rewrite Ha', slot_replicate. unfold ArrayPtr.create. rewrite slot_replicate.
  slots.
Qed.

(** X4.  [SimpleVector{...}] holds the listed values in their order, in an
    array of as many slots, with that size and capacity. *)
Theorem initializer_list_constructor l :
  SimpleVector_init dflt moved l =
    Ok {| items_ := l; size_ := Z.of_nat (length l);
          capacity_ := Z.of_nat (length l) |}.
Proof.
  unfold SimpleVector_init, std_copy.
  destruct (transfer_range_spec moved Copying l 0 (Z.of_nat (length l))
              (ArrayPtr.create dflt (Z.of_nat (length l))) 0)
    as (s1 & t1 & -> & Hl1 & Hl2 & Ht1 & Hs1);
    [unfold ArrayPtr.create; rewrite ?length_replicate; lia..|].
  simpl. do 2 f_equal. apply slot_ext. intros j.
  rewrite Ht1. unfold ArrayPtr.create. rewrite slot_replicate.
  destruct (decide (0 ≤ j < Z.of_nat (length l))).
  - slots.
  - rewrite (slot_None l j) by lia. slots.
Qed.

Lemma broadcast_loop_spec n : ∀ (tmp : list T) value lo,
  0 ≤ lo → lo + Z.of_nat n ≤ Z.of_nat (length tmp) →
  ∃ r, for_loop n lo
         (λ i (s : list T * T), tmp ← ArrayPtr.set s.1 i s.2; Ok (tmp, moved s.2))
         (tmp, value) = Ok r ∧
       length r.1 = length tmp ∧
       ∀ j, slot r.1 j =
            if bool_decide (lo ≤ j < lo + Z.of_nat n)
            then Some (Nat.iter (Z.to_nat (j - lo)) moved value)
            else slot tmp j.
Proof.
  induction n as [|n IH]; intros tmp value lo Hlo Hn.
  - exists (tmp, value). simpl. split; [done|]. split; [done|].
    intros j. by rewrite bool_decide_eq_false_2 by lia.
  - simpl. rewrite set_in_range by lia. simpl.
    destruct (IH (<[Z.to_nat lo := value]> tmp) (moved value) (lo + 1))
      as (r & -> & Hl & Hr); try (rewrite ?length_insert; lia).
    exists r. split; [done|]. rewrite Hl, length_insert. split; [done|].
    intros j. rewrite Hr, slot_insert by lia.
    destruct (decide (j = lo)) as [->|Hne].
    + rewrite bool_decide_eq_false_2 by lia.
      rewrite !bool_decide_eq_true_2 by lia.
      by replace (Z.to_nat (lo - lo)) with 0%nat by lia.
    + rewrite (bool_decide_eq_false_2 (j = lo)) by done.
      destruct (decide (lo + 1 ≤ j < lo + 1 + Z.of_nat n)).
      * rewrite !bool_decide_eq_true_2 by lia. f_equal.
        replace (Z.to_nat (j - lo)) with (S (Z.to_nat (j - (lo + 1)))) by lia.
        by rewrite Nat.iter_succ_r.
      * by rewrite !bool_decide_eq_false_2 by lia.
Qed.

(** X5.  [SimpleVector(n, std::move(value))] has size and capacity [n];
    slot [j] holds what [value] is after it has been moved from [j]
    times.  They are [n] copies of [value] when moving leaves [value] as
    it is. *)
Theorem fill_move_constructor n x :
  0 ≤ n →
  ∃ v, SimpleVector_fill_move dflt moved n x = Ok v ∧
    size_ v = n ∧ capacity_ v = n ∧ Z.of_nat (length (items_ v)) = n ∧
    (∀ j, 0 ≤ j < n → slot (items_ v) j = Some (Nat.iter (Z.to_nat j) moved x)) ∧
    (moved x = x → items_ v = replicate (Z.to_nat n) x).
Proof.
  intros Hn. unfold SimpleVector_fill_move, for_range.
  destruct (broadcast_loop_spec (Z.to_nat (n - 0)) (ArrayPtr.create dflt n) x 0)
    as (r & -> & Hl & Hr);
    [unfold ArrayPtr.create; rewrite ?length_replicate; lia..|].
  unfold ArrayPtr.create in Hl. rewrite length_replicate in Hl.
  simpl. eexists. split; [done|]. simpl.
  split; [done|]. split; [done|]. split; [lia|]. split.
  - intros j Hj. rewrite Hr. rewrite bool_decide_eq_true_2 by lia.
    do 2 f_equal. lia.
  - intros Hfix. apply slot_ext. intros j. rewrite Hr, slot_replicate.
    unfold ArrayPtr.create. rewrite slot_replicate.
    destruct (decide (0 ≤ j < n)).
    + rewrite !bool_decide_eq_true_2 by lia. f_equal.
      induction (Z.to_nat (j - 0)) as [|k IHk]; [done|].
      simpl. by rewrite IHk.
    + by rewrite !bool_decide_eq_false_2 by lia.
Qed.

(** ** [Reserve] and [PushBack] *)

(** X6.  [Reserve(n)] keeps the size and the elements and makes the
    capacity the larger of the old capacity and [n]: it never shrinks. *)
Theorem Reserve_never_shrinks v n :
  valid v →
  ∃ v', Reserve dflt moved v n = Ok v' ∧
    size_ v' = size_ v ∧ elements v' = elements v ∧
    capacity_ v' = Z.max (capacity_ v) n ∧ fits v'.
Proof.
  intros Hv. destruct (Z.le_gt_cases n (capacity_ v)) as [Hle|Hgt].
  - exists v. split; [by apply Reserve_enough|].
    split; [done|]. split; [done|]. split; [lia|by apply valid_fits].
  - destruct (Reserve_spec dflt moved v n Hv Hgt) as (v' & Hr & Hs & Hc & Hl & He).
    exists v'. split; [done|]. split; [done|]. split; [done|].
    split; [lia|]. unfold fits. sizes. lia.
Qed.

Lemma PushBack_within v x :
  valid v → size_ v < capacity_ v →
  ∃ v', PushBack dflt moved v x = Ok v' ∧
    length (items_ v') = length (items_ v).
Proof.
  intros Hv Hlt. unfold PushBack.
  rewrite (wrap_small (size_ v + 1)) by (sizes; lia).
  destruct (Resize_within dflt moved v (size_ v + 1))
    as (v1 & -> & Hs1 & Hc1 & Hl1 & _); [done|lia|].
  simpl. rewrite Hs1, wrap_small by (sizes; lia).
  rewrite set_in_range by (sizes; lia). simpl.
  eexists. split; [done|]. simpl. by rewrite length_insert.
Qed.

Lemma PushBack_elements v x :
  valid v →
  ∃ v', PushBack dflt moved v x = Ok v' ∧
    size_ v' = size_ v + 1 ∧
    elements v' = elements v ++ [x] ∧
    capacity_ v' =
      (if bool_decide (size_ v < capacity_ v) then capacity_ v
       else Z.max (2 * capacity_ v) (size_ v + 1)) ∧
    capacity_ v' ≤ Z.of_nat (length (items_ v')) ∧
    (size_ v < capacity_ v → length (items_ v') = length (items_ v)).
Proof.
  intros Hv.
  destruct (PushBack_spec dflt moved v x Hv) as (v' & Hp & Hs & Hc & Hl & Hslots).
  exists v'. split; [done|]. split; [done|].
  pose proof (fits_elements_length v (valid_fits v Hv)) as Hlen.
  split.
  { apply slot_ext. intros j.
    rewrite slot_app, slot_cons, slot_nil, !slot_elements, Hs, Hlen.
    destruct (decide (0 ≤ j < size_ v + 1)) as [Hj|Hj].
    - rewrite Hslots by done. slots.
    - destruct (decide (j < 0)).
      + rewrite !slot_None by lia. slots.
      + slots. }
  split; [done|]. split; [done|].
  intros Hlt.
  destruct (PushBack_within v x Hv Hlt) as (v'' & Hp' & Hlen').
  rewrite Hp in Hp'. by injection Hp' as <-.
Qed.

Lemma PushBack_all_room l : ∀ v,
  valid v → size_ v + Z.of_nat (length l) ≤ capacity_ v →
  ∃ v', PushBack_all dflt moved v l = Ok v' ∧
    elements v' = elements v ++ l ∧
    size_ v' = size_ v + Z.of_nat (length l) ∧
    capacity_ v' = capacity_ v ∧
    length (items_ v') = length (items_ v).
Proof.
  induction l as [|x l IH]; intros v Hv Hroom.
  - exists v. simpl. rewrite app_nil_r.
    split; [done|]. split; [done|]. split; [lia|]. done.
  - simpl in Hroom.
    destruct (PushBack_elements v x Hv) as (v1 & Hp & Hs & He & Hc & Hl & Hlen).
    rewrite bool_decide_eq_true_2 in Hc by lia.
    specialize (Hlen ltac:(lia)).
    destruct (IH v1) as (v' & Hall & He' & Hs' & Hc' & Hl').
    { sizes. lia. }
    { lia. }
    exists v'. simpl. rewrite Hp. simpl. split; [done|].
    split; [by rewrite He', He, <- app_assoc|].
    split; [lia|]. split; [congruence|congruence].
Qed.

(** X7.  Pushing onto a container that has room for all the values leaves
    the capacity and the array as they are: nothing is reallocated, and
    the values are appended in their order. *)
Theorem PushBack_all_within_capacity l v :
  valid v → size_ v + Z.of_nat (length l) ≤ capacity_ v →
  ∃ v', PushBack_all dflt moved v l = Ok v' ∧
    elements v' = elements v ++ l ∧
    size_ v' = size_ v + Z.of_nat (length l) ∧
    capacity_ v' = capacity_ v ∧
    length (items_ v') = length (items_ v).
Proof. apply PushBack_all_room. Qed.

(** X8.  [SimpleVector(Reserve(n))] is empty with capacity [n], and up to
    [n] values can be pushed onto it without the capacity changing. *)
Theorem reserved_constructor n l :
  0 ≤ n < 2 ^ (size_t_bits - 1) → Z.of_nat (length l) ≤ n →
  ∃ v v',
    SimpleVector_reserved dflt moved n = Ok v ∧
    size_ v = 0 ∧ capacity_ v = n ∧ elements v = [] ∧
    PushBack_all dflt moved v l = Ok v' ∧
    elements v' = l ∧ capacity_ v' = n.
Proof.
  intros Hn Hl. unfold SimpleVector_reserved.
  assert (valid (@SimpleVector_default T)) as Hv0 by (sizes; lia).
  assert (∃ v, Reserve dflt moved SimpleVector_default n = Ok v ∧
               size_ v = 0 ∧ capacity_ v = n ∧ elements v = [] ∧ valid v)
    as (v & Hr & Hs & Hc & He & Hv).
  { destruct (decide (n = 0)) as [->|Hn0].
    - exists SimpleVector_default. split; [by apply Reserve_enough|done].
    - destruct (Reserve_spec dflt moved SimpleVector_default n Hv0)
        as (v & Hr & Hs & Hc & Hlen & He); [simpl; lia|].
      exists v. split; [done|]. split; [done|]. split; [done|].
      split; [done|]. sizes. lia. }
  destruct (PushBack_all_room l v Hv) as (v' & Hp & He' & _ & Hc' & _); [lia|].
  exists v, v'. split; [done|]. split; [done|]. split; [done|]. split; [done|].
  split; [done|]. split; [by rewrite He', He|lia].
Qed.

Lemma PushBack_doubling v x :
  valid v → capacity_ v ≤ 2 * size_ v →
  (capacity_ v = 0 ∨ ∃ k : nat, capacity_ v = 2 ^ Z.of_nat k) →
  size_ v + 1 ≤ 2 ^ 62 →
  ∃ v', PushBack dflt moved v x = Ok v' ∧
    size_ v' = size_ v + 1 ∧ elements v' = elements v ++ [x] ∧
    valid v' ∧ capacity_ v' < 2 * size_ v' ∧
    ∃ k : nat, capacity_ v' = 2 ^ Z.of_nat k.
Proof.
  intros Hv Hc2 Hpow Hbound.
  destruct (PushBack_elements v x Hv) as (v' & Hp & Hs & He & Hc & Hl & _).
  exists v'. split; [done|]. split; [done|]. split; [done|].
  destruct (decide (size_ v < capacity_ v)) as [Hlt|Hge].
  - rewrite bool_decide_eq_true_2 in Hc by done.
    split; [sizes; lia|]. split; [lia|].
    destruct Hpow as [H0|Hk]; [sizes; lia|]. by rewrite Hc.
  - rewrite bool_decide_eq_false_2 in Hc by done.
    assert (size_ v = capacity_ v) as Heq by (sizes; lia).
    destruct Hpow as [H0|[k Hk]].
    + rewrite H0 in *. rewrite Heq in *.
      split; [sizes; lia|]. split; [lia|].
      exists 0%nat. rewrite Hc. simpl. lia.
    + assert (0 < 2 ^ Z.of_nat k) by (apply Z.pow_pos_nonneg; lia).
      assert (capacity_ v' = 2 * capacity_ v) as Hc' by lia.
      split; [sizes; lia|]. split; [lia|].
      exists (S k). rewrite Hc', Hk, Nat2Z.inj_succ, Z.pow_succ_r by lia. done.
Qed.

Lemma PushBack_all_doubling l : ∀ v,
  valid v → capacity_ v < 2 * size_ v →
  (∃ k : nat, capacity_ v = 2 ^ Z.of_nat k) →
  size_ v + Z.of_nat (length l) ≤ 2 ^ 62 →
  ∃ v', PushBack_all dflt moved v l = Ok v' ∧
    size_ v' = size_ v + Z.of_nat (length l) ∧ elements v' = elements v ++ l ∧
    valid v' ∧ capacity_ v' < 2 * size_ v' ∧
    ∃ k : nat, capacity_ v' = 2 ^ Z.of_nat k.
Proof.
  induction l as [|x l IH]; intros v Hv Hc2 Hpow Hbound.
  - exists v. simpl. rewrite app_nil_r.
    split; [done|]. split; [lia|]. by repeat (split; [done|]).
  - simpl in Hbound.
    destruct (PushBack_doubling v x Hv) as (v1 & Hp & Hs & He & Hv1 & Hc1 & Hk1);
      [lia|by right|lia|].
    destruct (IH v1 Hv1 Hc1 Hk1) as (v' & Hall & Hs' & He' & Hv' & Hc' & Hk');
      [lia|].
    exists v'. simpl. rewrite Hp. simpl. split; [done|].
    split; [lia|]. split; [by rewrite He', He, <- app_assoc|]. done.
Qed.

(** X9.  Pushing the values of a non-empty list onto a default-constructed
    container gives a container of exactly these values, whose capacity
    is the power of two with [size <= capacity < 2 * size]. *)
Theorem PushBack_all_from_empty x l :
  Z.of_nat (length (x :: l)) ≤ 2 ^ 62 →
  ∃ v', PushBack_all dflt moved SimpleVector_default (x :: l) = Ok v' ∧
    elements v' = x :: l ∧ size_ v' = Z.of_nat (length (x :: l)) ∧
    fits v' ∧
    size_ v' ≤ capacity_ v' < 2 * size_ v' ∧
    ∃ k : nat, capacity_ v' = 2 ^ Z.of_nat k.
Proof.
  intros Hbound. simpl in Hbound.
  assert (valid (@SimpleVector_default T)) as Hv0 by (sizes; lia).
  destruct (PushBack_doubling SimpleVector_default x Hv0)
    as (v1 & Hp & Hs & He & Hv1 & Hc1 & Hk1); [simpl; lia|by left|simpl; lia|].
  simpl in Hs.
  destruct (PushBack_all_doubling l v1 Hv1 Hc1 Hk1)
    as (v' & Hall & Hs' & He' & Hv' & Hc' & Hk'); [lia|].
  exists v'. cbn [PushBack_all]. rewrite Hp. simpl. split; [done|].
  split; [by rewrite He', He|]. split; [simpl length; lia|].
  split; [by apply valid_fits|]. split; [sizes; lia|done].
Qed.

(** ** [Insert], [Erase] and [PopBack] *)


(** X11.  [Erase(pos)] takes the element at [pos] out of the sequence and
    returns [pos]; the capacity and the array length stay as they are. *)
Theorem Erase_elements h v pos :
  in_storage v → 0 ≤ pos < size_ v →
  ∃ v', Erase_by moved h v pos = Ok (v', pos) ∧
    elements v' =
      take (Z.to_nat pos) (elements v) ++ drop (Z.to_nat (pos + 1)) (elements v) ∧
    size_ v' = size_ v - 1 ∧ capacity_ v' = capacity_ v ∧
    length (items_ v') = length (items_ v).
Proof.
  intros [Hst Hb] Hp.
  destruct (Erase_by_spec moved h v pos Hp) as (v' & He & Hs & Hc & Hl & Her);
    [lia..|].
  pose proof (elements_length v Hst) as Hlen.
  exists v'. split; [done|]. split; [|done].
  apply slot_ext. intros j.
  rewrite slot_app, slot_take, slot_drop, !slot_elements, Hs.
  rewrite length_take, Nat2Z.inj_min, Hlen.
  destruct (decide (0 ≤ j < size_ v - 1)) as [Hj|Hj].
  - rewrite Her by done. slots.
  - destruct (decide (j < 0)).
    + rewrite !slot_None by lia. slots.
    + slots.
Qed.

(** X12.  On a valid container, [Erase(pos)] through either overload and
    then [Insert] of the erased element at [pos] through the [Type&&]
    overload give back the elements, the size and the capacity. *)
Theorem Erase_then_Insert he v pos x :
  valid v → 0 ≤ pos < size_ v → slot (items_ v) pos = Some x →
  ∃ v1 v2,
    Erase_by moved he v pos = Ok (v1, pos) ∧
    Insert dflt moved v1 pos x = Ok (v2, pos) ∧
    elements v2 = elements v ∧ size_ v2 = size_ v ∧
    capacity_ v2 = capacity_ v.
Proof.
  intros Hv Hp Hx.
  destruct (Erase_by_spec moved he v pos Hp) as (v1 & He & Hs1 & Hc1 & Hl1 & Her);
    [sizes; lia..|].
  assert (valid v1) as Hv1 by (sizes; lia).
  destruct (Insert_spec dflt moved v1 pos x Hv1)
    as (v2 & Hi & Hs2 & Hc2 & Hl2 & Hins & _); [lia|].
  unfold inserted in Hins.
  rewrite bool_decide_eq_true_2 in Hc2 by (sizes; lia).
  exists v1, v2. split; [done|]. split; [done|].
  split; [|split; lia].
  apply elements_ext; [lia|].
  intros j Hj. rewrite Hins by lia.
  destruct (decide (j < pos)); [|destruct (decide (j = pos)) as [->|]].
  - rewrite bool_decide_eq_true_2 by done. rewrite Her by lia. slots.
  - rewrite bool_decide_eq_false_2 by lia. by rewrite bool_decide_eq_true_2.
  - rewrite !bool_decide_eq_false_2 by lia. rewrite Her by lia. slots.
Qed.

(** X13.  [PopBack()] gives the size, the capacity and the elements that
    [Erase] at the last element gives. *)
Theorem PopBack_is_Erase_of_the_last h v :
  in_storage v → 0 < size_ v →
  ∃ v1 v2,
    PopBack v = Ok v1 ∧
    Erase_by moved h v (end_ v - 1) = Ok (v2, end_ v - 1) ∧
    size_ v1 = size_ v2 ∧ capacity_ v1 = capacity_ v2 ∧
    elements v1 = elements v2.
Proof.
  intros [Hst Hb] Hpos.
  destruct (Erase_by_spec moved h v (end_ v - 1)) as (v2 & He & Hs & Hc & Hl & Her);
    [unfold end_; lia..|].
  exists (set_size v (size_ v - 1)), v2.
  split; [apply PopBack_spec; lia|]. split; [done|].
  simpl. split; [lia|]. split; [lia|].
  apply elements_ext; simpl; [lia|].
  intros j Hj. rewrite Her by lia. unfold end_. slots.
Qed.

(** X14.  On a valid container [Insert] through the [Type&&] overload
    succeeds exactly for the positions of [begin(), end()], [Erase] exactly for those of [begin(), end()),
    [PopBack] exactly when the container is not empty and [operator[]]
    exactly below the size; none of them ever throws. *)
Theorem asserted_preconditions h v pos x :
  valid v →
  ((∃ r, Insert dflt moved v pos x = Ok r) ↔ 0 ≤ pos ≤ size_ v) ∧
  ((∃ r, Erase_by moved h v pos = Ok r) ↔ 0 ≤ pos < size_ v) ∧
  ((∃ r, PopBack v = Ok r) ↔ 0 < size_ v) ∧
  ((∃ r, subscript v pos = Ok r) ↔ 0 ≤ pos < size_ v) ∧
  no_throw (Insert dflt moved v pos x) ∧
  no_throw (Erase_by moved h v pos) ∧
  no_throw (PopBack v) ∧ no_throw (subscript v pos).
Proof.
  intros Hv. split; [|split; [|split; [|split]]].
  - split.
    + intros [r Hr]. unfold Insert, begin, end_ in Hr.
      case_bool_decide; (done || lia).
    + intros Hp.
      destruct (Insert_spec dflt moved v pos x Hv Hp) as (v' & Hi & _).
      by eexists.
  - split.
    + intros [r Hr]. destruct h; simpl in Hr;
        [unfold Erase in Hr|unfold Erase_move in Hr];
        unfold begin, end_ in Hr; case_bool_decide; (done || lia).
    + intros Hp.
      destruct (Erase_by_spec moved h v pos Hp) as (v' & He & _); [sizes; lia..|].
      by eexists.
  - split.
    + intros [r Hr]. unfold PopBack, IsEmpty in Hr.
      case_bool_decide; [done|]. sizes. lia.
    + intros Hp. eexists. apply PopBack_spec. sizes. lia.
  - split.
    + intros [r Hr]. unfold subscript, ArrayPtr.get in Hr.
      repeat case_bool_decide; (done || lia).
    + intros Hp. destruct (slot_is_Some (items_ v) pos) as [y Hy]; [sizes; lia|].
      exists y. unfold subscript. rewrite bool_decide_eq_true_2 by lia.
      by apply get_slot.
  - split; [apply (no_throw_Insert_by dflt moved Moving)|].
    split; [apply no_throw_Erase_by|].
    split; [apply no_throw_PopBack|apply no_throw_subscript].
Qed.

(** X15.  Below the size [operator[]] and [At] return the same element; from
    the size on [At] throws where [operator[]] has failed its [assert]. *)
Theorem subscript_and_At v i :
  in_storage v → 0 ≤ i →
  (i < size_ v → ∃ x, subscript v i = Ok x ∧ At v i = Ok x ∧
                      elements v !! Z.to_nat i = Some x) ∧
  (size_ v ≤ i → subscript v i = Undefined ∧ At v i = Throw_out_of_range).
Proof.
  intros [Hst Hb] Hi. unfold subscript, At. split.
  - intros Hlt. destruct (slot_is_Some (items_ v) i) as [x Hx]; [lia|].
    exists x. rewrite bool_decide_eq_true_2, bool_decide_eq_false_2 by lia.
    rewrite (get_slot _ _ _ Hx). split; [done|]. split; [done|].
    pose proof (slot_elements v i) as He.
    rewrite bool_decide_eq_true_2, Hx in He by done.
    unfold slot in He. by rewrite bool_decide_eq_true_2 in He by done.
  - intros Hge. by rewrite bool_decide_eq_false_2, bool_decide_eq_true_2 by lia.
Qed.

(** ** [swap] and the two assignments *)

Lemma swap_ref_result (st : gmap nat (@SimpleVector T)) a b va vb :
  st !! a = Some va → st !! b = Some vb →
  swap_ref st a b = Ok (<[b := va]> (<[a := vb]> st)).
Proof.
  intros Ha Hb. unfold swap_ref, deref. rewrite Ha, Hb. simpl.
  by destruct va, vb.
Qed.

(** X16.  [a.swap(b)] exchanges the two objects whole (array, size and
    capacity), touches no other object, and a second [a.swap(b)] undoes
    it; this holds for [a.swap(a)] too. *)
Theorem swap_exchanges_and_undoes (st : gmap nat (@SimpleVector T)) a b va vb :
  st !! a = Some va → st !! b = Some vb →
  ∃ st', swap_ref st a b = Ok st' ∧
    st' !! a = Some vb ∧ st' !! b = Some va ∧
    (∀ c, c ≠ a → c ≠ b → st' !! c = st !! c) ∧
    swap_ref st' a b = Ok st.
Proof.
  intros Ha Hb.
  exists (<[b := va]> (<[a := vb]> st)).
  split; [by apply swap_ref_result|].
  assert ((<[b := va]> (<[a := vb]> st)) !! a = Some vb) as Ha'.
  { destruct (decide (a = b)) as [->|Hne].
    - rewrite lookup_insert_eq. congruence.
    - by rewrite lookup_insert_ne, lookup_insert_eq. }
  assert ((<[b := va]> (<[a := vb]> st)) !! b = Some va) as Hb'.
  { by rewrite lookup_insert_eq. }
  split; [done|]. split; [done|]. split.
  { intros c Hca Hcb. by rewrite !lookup_insert_ne. }
  rewrite (swap_ref_result _ a b vb va Ha' Hb').
  f_equal. apply map_eq. intros c.
  destruct (decide (c = b)) as [->|Hcb].
  { by rewrite lookup_insert_eq. }
  rewrite lookup_insert_ne by done.
  destruct (decide (c = a)) as [->|Hca].
  { by rewrite lookup_insert_eq. }
  by rewrite !lookup_insert_ne.
Qed.

(** X17.  [a = std::move(a)] leaves [a] with size 0 and capacity 0: its
    elements are gone. *)
Theorem self_move_assignment_empties (st : gmap nat (@SimpleVector T)) a va :
  st !! a = Some va →
  ∃ st' va', operator_assign_move st a a = Ok st' ∧
    st' !! a = Some va' ∧
    size_ va' = 0 ∧ capacity_ va' = 0 ∧ elements va' = [] ∧
    ∀ c, c ≠ a → st' !! c = st !! c.
Proof.
  intros Ha. unfold operator_assign_move, deref. rewrite Ha. simpl.
  eexists _, _. split; [done|]. split; [by rewrite lookup_insert_eq|].
  split; [done|]. split; [done|]. split; [done|].
  intros c Hc. by rewrite !lookup_insert_ne.
Qed.

(** X18.  The copy constructor allocates as many slots as its source has
    elements, and fills them with these elements: unused slots of the
    source are not copied, whatever capacity is recorded. *)
Theorem copy_constructor_array v :
  in_storage v →
  ∃ w, SimpleVector_copy dflt moved v = Ok w ∧
    items_ w = elements v ∧ size_ w = size_ v ∧
    (fits w ↔ capacity_ v = size_ v).
Proof.
  intros Hst.
  destruct (SimpleVector_copy_spec dflt moved v Hst) as (w & Hc & Hs & Hcap & Hl & He).
  exists w. split; [done|]. split; [|split; [done|]].
  - rewrite <- He. unfold elements. rewrite take_ge; [done|lia].
  - destruct Hst as [Hst _]. unfold fits. split; lia.
Qed.

(** X19.  The move constructor moves element by element into an array of as
    many slots as its source has elements; the source keeps its array,
    with the moved-from elements in it, and has size 0 and capacity 0. *)
Theorem move_constructor_arrays v :
  in_storage v →
  ∃ w v', SimpleVector_move dflt moved v = Ok (w, v') ∧
    items_ w = elements v ∧ size_ w = size_ v ∧ capacity_ w = capacity_ v ∧
    size_ v' = 0 ∧ capacity_ v' = 0 ∧
    length (items_ v') = length (items_ v) ∧
    ∀ j, slot (items_ v') j =
         if bool_decide (0 ≤ j < size_ v) then moved <$> slot (items_ v) j
         else slot (items_ v) j.
Proof.
  intros [Hs Hb]. unfold SimpleVector_move, GetSize, GetCapacity, std_move.
  destruct (transfer_range_spec moved Moving (items_ v) (begin v) (end_ v)
              (ArrayPtr.create dflt (size_ v)) 0)
    as (s1 & t1 & -> & Hl1 & Hl2 & Ht1 & Hs1);
    [unfold ArrayPtr.create; rewrite ?length_replicate; sizes; lia..|].
  unfold ArrayPtr.create in Hl2. rewrite length_replicate in Hl2.
  simpl. eexists _, _. split; [done|]. simpl.
  split; [|split; [done|split; [done|split; [done|split; [done|split; [done|]]]]]].
  - apply slot_ext. intros j. rewrite Ht1. unfold elements.
    rewrite slot_take. unfold ArrayPtr.create. rewrite slot_replicate.
    sizes. destruct (decide (0 ≤ j)).
    + slots.
    + rewrite !slot_None by lia. slots.
  - intros j. rewrite Hs1. sizes. slots.
Qed.

(** ** [operator==] *)

Section Equality.
Variable T_eqb : T → T → bool.
Hypothesis T_eqb_eq : ∀ x y, T_eqb x y = true ↔ x = y.

Lemma equal_loop_decides n : ∀ (a : list T) first1 (b : list T) first2,
  0 ≤ first1 → first1 + Z.of_nat n ≤ Z.of_nat (length a) →
  0 ≤ first2 → first2 + Z.of_nat n ≤ Z.of_nat (length b) →
  ∃ r, equal_loop T_eqb n a first1 b first2 = Ok r ∧
    (r = true ↔
     ∀ k, 0 ≤ k < Z.of_nat n → slot a (first1 + k) = slot b (first2 + k)).
Proof.
  induction n as [|n IH]; intros a first1 b first2 H1 H1n H2 H2n.
  - exists true. split; [done|]. split; [intros _ k Hk; lia|done].
  - destruct (slot_is_Some a first1) as [x Hx]; [lia|].
    destruct (slot_is_Some b first2) as [y Hy]; [lia|].
    simpl. rewrite (get_slot _ _ _ Hx), (get_slot _ _ _ Hy). simpl.
    destruct (T_eqb x y) eqn:Exy.
    + apply T_eqb_eq in Exy as ->.
      destruct (IH a (first1 + 1) b (first2 + 1)) as (r & -> & Hr); try lia.
      exists r. split; [done|]. rewrite Hr. split.
      * intros Hall k Hk. destruct (decide (k = 0)) as [->|Hk0].
        -- rewrite !Z.add_0_r. congruence.
        -- specialize (Hall (k - 1) ltac:(lia)).
           by replace (first1 + 1 + (k - 1)) with (first1 + k) in Hall by lia;
              replace (first2 + 1 + (k - 1)) with (first2 + k) in Hall by lia.
      * intros Hall k Hk. rewrite <- !Z.add_assoc. apply Hall. lia.
    + exists false. split; [done|]. split; [done|].
      intros Hall. specialize (Hall 0 ltac:(lia)).
      rewrite !Z.add_0_r, Hx, Hy in Hall. injection Hall as ->.
      assert (T_eqb y y = true) by by apply T_eqb_eq. congruence.
Qed.

(** X20.  When the elements' [==] is equality, [a == b] never fails and is
    true exactly when the two containers have the same elements in the
    same order; capacities and unused slots play no part. *)
Theorem operator_eq_compares_elements (st : gmap nat (@SimpleVector T)) a b va vb :
  st !! a = Some va → st !! b = Some vb →
  in_storage va → in_storage vb →
  ∃ r, operator_eq T_eqb st a b = Ok r ∧
       operator_ne T_eqb st a b = Ok (negb r) ∧
       (r = true ↔ elements va = elements vb).
Proof.
  intros Ha Hb Hva Hvb.
  assert (∃ r, operator_eq T_eqb st a b = Ok r ∧
               (r = true ↔ elements va = elements vb)) as (r & Hr & Hiff).
  { unfold operator_eq, deref. rewrite Ha, Hb. simpl.
    case_bool_decide as Hab.
    { subst b. exists true. split; [done|]. split; [|done].
      intros _. congruence. }
    destruct Hva as [Hsa Hba], Hvb as [Hsb Hbb].
    unfold std_equal. rewrite !distance_ok by (sizes; lia). simpl.
    case_bool_decide as Hn.
    - assert (size_ va = size_ vb) as Hs by (sizes; lia).
      destruct (equal_loop_decides (Z.to_nat (end_ va - begin va))
                  (items_ va) (begin va) (items_ vb) (begin vb))
        as (r & -> & Hr); [sizes; lia..|].
      exists r. split; [done|]. rewrite Hr. split.
      + intros Hall. apply elements_ext; [done|].
        intros j Hj. specialize (Hall j). sizes. apply Hall. lia.
      + intros He k Hk.
        destruct (elements_slots va vb) as [_ Hsl]; [done..|].
        sizes. apply Hsl. lia.
    - exists false. split; [done|]. split; [done|].
      intros He. exfalso. apply Hn.
      pose proof (elements_length va Hsa) as La.
      pose proof (elements_length vb Hsb) as Lb.
      rewrite He in La. sizes. lia. }
  exists r. split; [done|]. split; [|done].
  unfold operator_ne. by rewrite Hr.
Qed.

End Equality.

(** ** The ordering operators *)

Section OrderingFacts.
Variable T_ltb : T → T → bool.

Lemma lexicographical_loop_spec l1 : ∀ l2 (a b : list T) first1 first2,
  0 ≤ first1 → 0 ≤ first2 →
  (∀ k : nat, (k < length l1)%nat → slot a (first1 + Z.of_nat k) = l1 !! k) →
  (∀ k : nat, (k < length l2)%nat → slot b (first2 + Z.of_nat k) = l2 !! k) →
  ∃ r, lexicographical_loop T_ltb (length l1 `min` length l2) a first1 b first2
         = Ok r ∧
       match r with
       | Some answer => answer
       | None => bool_decide (length l1 < length l2)%nat
       end = lex_lt T_ltb l1 l2.
Proof.
  induction l1 as [|x l1 IH]; intros l2 a b first1 first2 H1 H2 Ha Hb.
  - exists None. split; [done|].
    destruct l2; simpl; first [done|apply bool_decide_eq_true_2; lia].
  - destruct l2 as [|y l2].
    + exists None. split; [done|].
      simpl; first [done|apply bool_decide_eq_false_2; lia].
    + assert (slot a first1 = Some x) as Hx.
      { specialize (Ha 0%nat ltac:(simpl; lia)). by rewrite Z.add_0_r in Ha. }
      assert (slot b first2 = Some y) as Hy.
      { specialize (Hb 0%nat ltac:(simpl; lia)). by rewrite Z.add_0_r in Hb. }
      simpl. rewrite (get_slot _ _ _ Hx), (get_slot _ _ _ Hy). simpl.
      destruct (T_ltb x y); [by exists (Some true)|].
      destruct (T_ltb y x); [by exists (Some false)|].
      destruct (IH l2 a b (first1 + 1) (first2 + 1)) as (r & -> & Hr); try lia.
      { intros k Hk. specialize (Ha (S k) ltac:(simpl; lia)).
        etrans; [|exact Ha]. f_equal. lia. }
      { intros k Hk. specialize (Hb (S k) ltac:(simpl; lia)).
        etrans; [|exact Hb]. f_equal. lia. }
      exists r. split; [done|]. rewrite <- Hr. destruct r; [done|].
      apply bool_decide_ext. lia.
Qed.

Lemma slot_of_elements v (k : nat) :
  in_storage v → (k < length (elements v))%nat →
  slot (items_ v) (begin v + Z.of_nat k) = elements v !! k.
Proof.
  intros [Hs Hb] Hk. pose proof (elements_length v Hs) as Hlen.
  pose proof (slot_elements v (Z.of_nat k)) as He.
  rewrite bool_decide_eq_true_2 in He by lia.
  unfold slot at 1 in He. rewrite bool_decide_eq_true_2, Nat2Z.id in He by lia.
  rewrite He. unfold begin. f_equal.
Qed.

Lemma operator_lt_spec v w :
  in_storage v → in_storage w →
  operator_lt T_ltb v w = Ok (lex_lt T_ltb (elements v) (elements w)).
Proof.
  intros Hv Hw. unfold operator_lt, std_lexicographical_compare.
  pose proof (elements_length v (proj1 Hv)) as Lv.
  pose proof (elements_length w (proj1 Hw)) as Lw.
  destruct Hv as [Hsv Hbv], Hw as [Hsw Hbw].
  rewrite !distance_ok by (sizes; lia). simpl.
  assert (Z.to_nat (end_ v - begin v) = length (elements v)) as -> by (sizes; lia).
  assert (Z.to_nat (end_ w - begin w) = length (elements w)) as -> by (sizes; lia).
  destruct (lexicographical_loop_spec (elements v) (elements w)
              (items_ v) (items_ w) (begin v) (begin w))
    as (r & -> & Hr); [done|done|..].
  { intros k Hk. by apply slot_of_elements. }
  { intros k Hk. by apply slot_of_elements. }
  simpl. rewrite <- Hr. by destruct r.
Qed.

(** X21.  The four ordering operators never fail and compare the elements
    lexicographically by the elements' [<]: the first position where one
    element is less than the other decides, and a proper prefix is less.
    Capacities and unused slots play no part. *)
Theorem ordering_is_lexicographic v w :
  in_storage v → in_storage w →
  operator_lt T_ltb v w = Ok (lex_lt T_ltb (elements v) (elements w)) ∧
  operator_gt T_ltb v w = Ok (lex_lt T_ltb (elements w) (elements v)) ∧
  operator_le T_ltb v w = Ok (negb (lex_lt T_ltb (elements w) (elements v))) ∧
  operator_ge T_ltb v w = Ok (negb (lex_lt T_ltb (elements v) (elements w))).
Proof.
  intros Hv Hw. unfold operator_gt, operator_le, operator_ge.
  rewrite !operator_lt_spec by done. done.
Qed.

Lemma lex_lt_irrefl l :
  (∀ x, T_ltb x x = false) → lex_lt T_ltb l l = false.
Proof.
  intros Hirr. induction l as [|x l IH]; [done|].
  simpl. by rewrite Hirr.
Qed.

Lemma lex_lt_prefix l y l' :
  (∀ x, T_ltb x x = false) → lex_lt T_ltb l (l ++ y :: l') = true.
Proof.
  intros Hirr. induction l as [|x l IH]; [done|].
  simpl. by rewrite Hirr.
Qed.

Lemma lex_lt_asym l1 : ∀ l2,
  (∀ x y, T_ltb x y = true → T_ltb y x = false) →
  lex_lt T_ltb l1 l2 = true → lex_lt T_ltb l2 l1 = false.
Proof.
  intros l2 Hasym. revert l2.
  induction l1 as [|x l1 IH]; intros [|y l2]; simpl; try done.
  destruct (T_ltb x y) eqn:Exy.
  - by rewrite (Hasym _ _ Exy).
  - destruct (T_ltb y x); [done|]. apply IH.
Qed.

Lemma lex_lt_connected l1 : ∀ l2,
  (∀ x y, T_ltb x y = false → T_ltb y x = false → x = y) →
  lex_lt T_ltb l1 l2 = false → lex_lt T_ltb l2 l1 = false → l1 = l2.
Proof.
  intros l2 Hconn. revert l2.
  induction l1 as [|x l1 IH]; intros [|y l2]; simpl; try done.
  destruct (T_ltb x y) eqn:Exy; [done|].
  destruct (T_ltb y x) eqn:Eyx; [done|].
  intros H1 H2. rewrite (Hconn _ _ Exy Eyx). f_equal. by apply IH.
Qed.

(** X22.  When the elements' [<] is irreflexive, no container is less than
    itself or than one with the same elements, and a container whose
    elements are a proper prefix of another's is less than it. *)
Theorem less_than_is_strict_on_prefixes v w :
  (∀ x, T_ltb x x = false) →
  in_storage v → in_storage w →
  (elements v = elements w → operator_lt T_ltb v w = Ok false) ∧
  (∀ y l, elements w = elements v ++ y :: l →
          operator_lt T_ltb v w = Ok true ∧ operator_lt T_ltb w v = Ok false).
Proof.
  intros Hirr Hv Hw. rewrite !operator_lt_spec by done. split.
  - intros ->. by rewrite lex_lt_irrefl.
  - intros y l ->. rewrite lex_lt_prefix by done. split; [done|]. f_equal.
    induction (elements v) as [|x l0 IH]; [done|]. simpl. by rewrite Hirr.
Qed.

(** X23.  When the elements' [<] is a strict total order, exactly one of
    [a < b], [b < a] and "the same elements" holds; so [a <= b] and
    [b <= a] together mean the same elements, and one of them always
    holds. *)
Theorem ordering_is_total v w :
  (∀ x y, T_ltb x y = true → T_ltb y x = false) →
  (∀ x y, T_ltb x y = false → T_ltb y x = false → x = y) →
  in_storage v → in_storage w →
  (operator_lt T_ltb v w = Ok true ∨ elements v = elements w ∨
   operator_lt T_ltb w v = Ok true) ∧
  ¬ (operator_lt T_ltb v w = Ok true ∧ operator_lt T_ltb w v = Ok true) ∧
  ¬ (operator_lt T_ltb v w = Ok true ∧ elements v = elements w) ∧
  ¬ (operator_lt T_ltb w v = Ok true ∧ elements v = elements w) ∧
  (operator_le T_ltb v w = Ok true ∧ operator_le T_ltb w v = Ok true ↔
   elements v = elements w) ∧
  (operator_le T_ltb v w = Ok true ∨ operator_le T_ltb w v = Ok true).
Proof.
  intros Hasym Hconn Hv Hw.
  assert (∀ x, T_ltb x x = false) as Hirr.
  { intros x. destruct (T_ltb x x) eqn:E; [|done]. by rewrite (Hasym _ _ E) in E. }
  unfold operator_le. rewrite !operator_lt_spec by done. simpl.
  destruct (lex_lt T_ltb (elements v) (elements w)) eqn:Evw;
    destruct (lex_lt T_ltb (elements w) (elements v)) eqn:Ewv.
  - by rewrite (lex_lt_asym _ _ Hasym Evw) in Ewv.
  - assert (elements v ≠ elements w) as Hne.
    { intros He. rewrite He, lex_lt_irrefl in Evw; done. }
    split; [by left|]. split; [by intros [_ ?]|]. split; [by intros [_ ?]|].
    split; [by intros [? _]|]. split; [|by left].
    split; [by intros [_ ?]|done].
  - assert (elements v ≠ elements w) as Hne.
    { intros He. rewrite He, lex_lt_irrefl in Ewv; done. }
    split; [by right; right|]. split; [by intros [? _]|].
    split; [by intros [? _]|]. split; [by intros [_ ?]|]. split; [|by right].
    split; [by intros [? _]|done].
  - pose proof (lex_lt_connected _ _ Hconn Evw Ewv) as He.
    split; [by right; left|]. split; [by intros [? _]|].
    split; [by intros [? _]|]. split; [by intros [? _]|]. split; [|by left].
    done.
Qed.

End OrderingFacts.

End MoreFacts.

(** ** These theorems at work *)

Lemma in_storage_v_123 : in_storage v_123.
Proof. unfold in_storage. sizes. lia. Defined.

Lemma in_storage_v_12 : in_storage v_12.
Proof. unfold in_storage. sizes. lia. Defined.

Lemma two_objects_at_0 : two_objects !! 0%nat = Some SimpleVector_default.
Proof. apply lookup_insert_eq. Defined.

Lemma two_objects_at_1 : two_objects !! 1%nat = Some v_123.
Proof.
  unfold two_objects. rewrite lookup_insert_ne by done. apply lookup_insert_eq.
Defined.

Lemma Resize_elements_witness :
  valid v_12 ∧ 0 ≤ 5 < 2 ^ size_t_bits ∧
  ∃ v', Resize 0 id v_12 5 = Ok v' ∧ elements v' = [1; 2; 0; 0; 0].
Proof.
  assert (0 ≤ 5 < 2 ^ size_t_bits) as Hn by (sizes; lia).
  split; [apply valid_v_12|]. split; [done|].
  destruct (Resize_elements 0 id v_12 5 valid_v_12 Hn) as (v' & Hr & He & _).
  by exists v'.
Defined.

Lemma Clear_is_Resize_0_witness :
  0 ≤ size_ v_123 ≤ capacity_ v_123 ∧ Resize 0 id v_123 0 = Ok (Clear v_123).
Proof.
  assert (0 ≤ size_ v_123 ≤ capacity_ v_123) as Hs by (simpl; lia).
  split; [done|]. apply (Clear_is_Resize_0 0 id v_123 Hs).
Defined.

Lemma fill_constructor_witness :
  0 ≤ 3 ∧
  SimpleVector_fill 0 3 7 = Ok {| items_ := [7; 7; 7]; size_ := 3; capacity_ := 3 |}.
Proof.
  assert (0 ≤ 3) as Hn by lia.
  split; [done|]. apply (fill_constructor 0 3 7 Hn).
Defined.

Lemma fill_move_constructor_witness :
  0 ≤ 3 ∧
  ∃ v, SimpleVector_fill_move 0 (Z.add 10) 3 7 = Ok v ∧
       slot (items_ v) 2 = Some 27.
Proof.
  assert (0 ≤ 3) as Hn by lia.
  split; [done|].
  destruct (fill_move_constructor 0 (Z.add 10) 3 7 Hn)
    as (v & Hv & _ & _ & _ & Hslots & _).
  exists v. split; [done|]. apply (Hslots 2). lia.
Defined.

Lemma Reserve_never_shrinks_witness :
  valid v_123 ∧
  ∃ v', Reserve 0 id v_123 2 = Ok v' ∧ capacity_ v' = 3 ∧
        elements v' = [1; 2; 3].
Proof.
  split; [apply valid_v_123|].
  destruct (Reserve_never_shrinks 0 id v_123 2 valid_v_123)
    as (v' & Hr & _ & He & Hc & _).
  by exists v'.
Defined.

Lemma PushBack_all_within_capacity_witness :
  valid v_12 ∧ size_ v_12 + Z.of_nat (length [9]) ≤ capacity_ v_12 ∧
  ∃ v', PushBack_all 0 id v_12 [9] = Ok v' ∧
        elements v' = [1; 2; 9] ∧ capacity_ v' = 3.
Proof.
  assert (size_ v_12 + Z.of_nat (length [9]) ≤ capacity_ v_12) as Hroom
    by (simpl; lia).
  split; [apply valid_v_12|]. split; [done|].
  destruct (PushBack_all_within_capacity 0 id [9] v_12 valid_v_12 Hroom)
    as (v' & Hp & He & _ & Hc & _).
  by exists v'.
Defined.

Lemma PushBack_all_from_empty_witness :
  Z.of_nat (length [1; 2; 3]) ≤ 2 ^ 62 ∧
  ∃ v', PushBack_all 0 id SimpleVector_default [1; 2; 3] = Ok v' ∧
        elements v' = [1; 2; 3] ∧ size_ v' ≤ capacity_ v' < 2 * size_ v'.
Proof.
  assert (Z.of_nat (length [1; 2; 3]) ≤ 2 ^ 62) as Hb.
  { change (3 ≤ 4611686018427387904). lia. }
  split; [exact Hb|].
  destruct (PushBack_all_from_empty 0 id 1 [2; 3] Hb)
    as (v' & Hp & He & _ & _ & Hc & _).
  exists v'. split; [exact Hp|]. split; [exact He|exact Hc].
Defined.


Lemma Erase_elements_witness :
  in_storage v_123 ∧ 0 ≤ 1 < size_ v_123 ∧
  ∃ v', Erase id v_123 1 = Ok (v', 1) ∧ elements v' = [1; 3] ∧
        capacity_ v' = 3.
Proof.
  assert (0 ≤ 1 < size_ v_123) as Hp by (simpl; lia).
  split; [apply in_storage_v_123|]. split; [done|].
  destruct (Erase_elements id Copying v_123 1 in_storage_v_123 Hp)
    as (v' & He & Hel & _ & Hc & _).
  by exists v'.
Defined.

Lemma Erase_then_Insert_witness :
  valid v_123 ∧ 0 ≤ 1 < size_ v_123 ∧ slot (items_ v_123) 1 = Some 2 ∧
  ∃ v1 v2, Erase id v_123 1 = Ok (v1, 1) ∧ Insert 0 id v1 1 2 = Ok (v2, 1) ∧
           elements v2 = [1; 2; 3] ∧ capacity_ v2 = 3.
Proof.
  assert (0 ≤ 1 < size_ v_123) as Hp by (simpl; lia).
  assert (slot (items_ v_123) 1 = Some 2) as Hx by reflexivity.
  split; [apply valid_v_123|]. split; [done|]. split; [done|].
  destruct (Erase_then_Insert 0 id Copying v_123 1 2 valid_v_123 Hp Hx)
    as (v1 & v2 & He & Hi & Hel & _ & Hc).
  by exists v1, v2.
Defined.

Lemma PopBack_is_Erase_of_the_last_witness :
  in_storage v_123 ∧ 0 < size_ v_123 ∧
  ∃ v1 v2, PopBack v_123 = Ok v1 ∧ Erase_move id v_123 2 = Ok (v2, 2) ∧
           elements v1 = elements v2.
Proof.
  assert (0 < size_ v_123) as Hp by (simpl; lia).
  split; [apply in_storage_v_123|]. split; [done|].
  destruct (PopBack_is_Erase_of_the_last id Moving v_123 in_storage_v_123 Hp)
    as (v1 & v2 & Hpop & He & _ & _ & Hel).
  by exists v1, v2.
Defined.

Lemma asserted_preconditions_witness :
  valid v_123 ∧ ¬ ∃ r, Insert 0 id v_123 5 9 = Ok r.
Proof.
  split; [apply valid_v_123|].
  destruct (asserted_preconditions 0 id Moving v_123 5 9 valid_v_123)
    as [Hins _].
  intros Hr. apply Hins in Hr. simpl in Hr. lia.
Defined.

Lemma subscript_and_At_witness :
  in_storage v_123 ∧ 0 ≤ 1 ∧
  ∃ x, subscript v_123 1 = Ok x ∧ At v_123 1 = Ok x.
Proof.
  assert (0 ≤ 1) as Hi by lia.
  split; [apply in_storage_v_123|]. split; [done|].
  destruct (subscript_and_At v_123 1 in_storage_v_123 Hi) as [Hbelow _].
  destruct Hbelow as (x & Hs & Ha & _); [simpl; lia|].
  by exists x.
Defined.

Lemma swap_exchanges_and_undoes_witness :
  two_objects !! 0%nat = Some SimpleVector_default ∧
  two_objects !! 1%nat = Some v_123 ∧
  ∃ st', swap_ref two_objects 0%nat 1%nat = Ok st' ∧
         st' !! 0%nat = Some v_123 ∧
         swap_ref st' 0%nat 1%nat = Ok two_objects.
Proof.
  split; [apply two_objects_at_0|]. split; [apply two_objects_at_1|].
  destruct (swap_exchanges_and_undoes two_objects 0%nat 1%nat _ _
              two_objects_at_0 two_objects_at_1)
    as (st' & Hs & Ha & _ & _ & Hback).
  by exists st'.
Defined.

Lemma self_move_assignment_empties_witness :
  two_objects !! 1%nat = Some v_123 ∧
  ∃ st' v', operator_assign_move two_objects 1%nat 1%nat = Ok st' ∧
            st' !! 1%nat = Some v' ∧ size_ v' = 0 ∧ elements v' = [].
Proof.
  split; [apply two_objects_at_1|].
  destruct (self_move_assignment_empties two_objects 1%nat v_123 two_objects_at_1)
    as (st' & v' & Hm & Hl & Hs & _ & He & _).
  by exists st', v'.
Defined.

Lemma copy_constructor_array_witness :
  in_storage v_12 ∧
  ∃ w, SimpleVector_copy 0 id v_12 = Ok w ∧ items_ w = [1; 2] ∧ ¬ fits w.
Proof.
  split; [apply in_storage_v_12|].
  destruct (copy_constructor_array 0 id v_12 in_storage_v_12)
    as (w & Hc & Hi & _ & Hfits).
  exists w. split; [done|]. split; [done|].
  intros Hf. apply Hfits in Hf. simpl in Hf. lia.
Defined.

Lemma move_constructor_arrays_witness :
  in_storage v_123 ∧
  ∃ w v', SimpleVector_move 0 (Z.add 10) v_123 = Ok (w, v') ∧
          items_ w = [1; 2; 3] ∧ slot (items_ v') 0 = Some 11.
Proof.
  split; [apply in_storage_v_123|].
  destruct (move_constructor_arrays 0 (Z.add 10) v_123 in_storage_v_123)
    as (w & v' & Hm & Hi & _ & _ & _ & _ & _ & Hslots).
  exists w, v'. split; [done|]. split; [done|]. apply (Hslots 0).
Defined.

Lemma operator_eq_compares_elements_witness :
  (∀ x y, Z.eqb x y = true ↔ x = y) ∧
  two_objects !! 0%nat = Some SimpleVector_default ∧
  two_objects !! 1%nat = Some v_123 ∧
  in_storage (@SimpleVector_default Z) ∧ in_storage v_123 ∧
  operator_eq Z.eqb two_objects 0%nat 1%nat = Ok false.
Proof.
  assert (in_storage (@SimpleVector_default Z)) as Hva
    by (unfold in_storage; sizes; lia).
  split; [apply Z.eqb_eq|]. split; [apply two_objects_at_0|].
  split; [apply two_objects_at_1|]. split; [done|].
  split; [apply in_storage_v_123|].
  destruct (operator_eq_compares_elements Z.eqb Z.eqb_eq two_objects 0%nat 1%nat
              _ _ two_objects_at_0 two_objects_at_1 Hva in_storage_v_123)
    as (r & Hr & _ & Hiff).
  rewrite Hr. f_equal. destruct r; [|done].
  destruct Hiff as [Hiff _]. by specialize (Hiff eq_refl).
Defined.

Lemma ordering_is_lexicographic_witness :
  in_storage v_12 ∧ in_storage v_123 ∧
  operator_lt Z.ltb v_12 v_123 = Ok true ∧ operator_ge Z.ltb v_12 v_123 = Ok false.
Proof.
  split; [apply in_storage_v_12|]. split; [apply in_storage_v_123|].
  destruct (ordering_is_lexicographic Z.ltb v_12 v_123
              in_storage_v_12 in_storage_v_123) as (Hlt & _ & _ & Hge).
  by split.
Defined.

Lemma Zltb_irrefl : ∀ x, Z.ltb x x = false.
Proof. intros x. apply Z.ltb_irrefl. Defined.

Lemma Zltb_asym : ∀ x y, Z.ltb x y = true → Z.ltb y x = false.
Proof. intros x y H. apply Z.ltb_lt in H. apply Z.ltb_ge. lia. Defined.

Lemma Zltb_connected : ∀ x y, Z.ltb x y = false → Z.ltb y x = false → x = y.
Proof. intros x y H1 H2. apply Z.ltb_ge in H1, H2. lia. Defined.

Lemma less_than_is_strict_on_prefixes_witness :
  (∀ x, Z.ltb x x = false) ∧ in_storage v_12 ∧ in_storage v_123 ∧
  operator_lt Z.ltb v_12 v_123 = Ok true ∧ operator_lt Z.ltb v_123 v_12 = Ok false.
Proof.
  split; [apply Zltb_irrefl|].
  split; [apply in_storage_v_12|]. split; [apply in_storage_v_123|].
  destruct (less_than_is_strict_on_prefixes Z.ltb v_12 v_123 Zltb_irrefl
              in_storage_v_12 in_storage_v_123) as [_ Hprefix].
  apply (Hprefix 3 []). done.
Defined.

Lemma ordering_is_total_witness :
  (∀ x y, Z.ltb x y = true → Z.ltb y x = false) ∧
  (∀ x y, Z.ltb x y = false → Z.ltb y x = false → x = y) ∧
  in_storage v_12 ∧ in_storage v_123 ∧
  (operator_le Z.ltb v_12 v_123 = Ok true ∨ operator_le Z.ltb v_123 v_12 = Ok true).
Proof.
  split; [apply Zltb_asym|]. split; [apply Zltb_connected|].
  split; [apply in_storage_v_12|]. split; [apply in_storage_v_123|].
  destruct (ordering_is_total Z.ltb v_12 v_123 Zltb_asym Zltb_connected
              in_storage_v_12 in_storage_v_123) as (_ & _ & _ & _ & _ & Htotal).
  done.
Defined.

Lemma reserved_constructor_witness :
  0 ≤ 4 < 2 ^ (size_t_bits - 1) ∧ Z.of_nat (length [1; 2; 3]) ≤ 4 ∧
  ∃ v v', SimpleVector_reserved 0 id 4 = Ok v ∧ capacity_ v = 4 ∧
          PushBack_all 0 id v [1; 2; 3] = Ok v' ∧
          elements v' = [1; 2; 3] ∧ capacity_ v' = 4.
Proof.
  assert (0 ≤ 4 < 2 ^ (size_t_bits - 1)) as Hn by (sizes; lia).
  assert (Z.of_nat (length [1; 2; 3]) ≤ 4) as Hl by (simpl; lia).
  split; [exact Hn|]. split; [exact Hl|].
  destruct (reserved_constructor 0 id 4 [1; 2; 3] Hn Hl)
    as (v & v' & Hr & _ & Hc & _ & Hp & He & Hc').
  exists v, v'. split; [exact Hr|]. split; [exact Hc|]. split; [exact Hp|].
  split; [exact He|exact Hc'].
Defined.
